(** * ace-bar-file-syncer: the upload pipeline of [index.js]

    A shallow embedding of the BAR file watcher: the token cache
    ([cachedToken], [tokenExpiry], [generateToken]), the upload operation
    ([uploadBarFile]) with its retry on 401, the per-path debouncer
    ([debounceTimers], [handleFileChange]) and what [initializeWatcher]
    installs: the handlers of the watcher with their extension filter, and
    the SIGINT handler.

    The asynchronous functions are written in a small state-and-exception
    monad over a [World]: the two module-level cache variables and the history
    of everything the code did to the outside (clock reads, HTTP calls, file
    system calls, console output).  What the outside answers is an [Env]: the
    k-th call of each kind gets the k-th answer.  The timers of the host are a
    table of pending timers with a virtual clock; the host sets a delay it
    does not take to one millisecond.  The process ends on a signal, and
    when a read stream that an upload left without a listener fails. *)

From Stdlib Require Import Ascii String.
From stdpp Require Import gmap strings list pretty sorting.

Open Scope string_scope.
Open Scope list_scope.
Set Warnings "-register-all".

(** ** JavaScript values the code handles *)

(** Up to 2^53 every non-negative integer is a number of JavaScript, and is
    written with all its digits. *)
Definition MAX_EXACT_INTEGER : N := 9007199254740992.

(** What [response.json()] can produce, and what [cachedToken] can hold.  The
    numbers are the non-negative integers up to [MAX_EXACT_INTEGER]. *)
Inductive JsValue : Type :=
| JsUndefined
| JsNull
| JsBool (b : bool)
| JsNumber (n : N) (exact : (n <=? MAX_EXACT_INTEGER)%N = true)
| JsString (s : string)
| JsObject (props : list (string * JsValue)).

(** ToBoolean, as used by [&&] and [if]. *)
Definition truthy (v : JsValue) : bool :=
  match v with
  | JsUndefined | JsNull => false
  | JsBool b => b
  | JsNumber n _ => negb (n =? 0)%N
  | JsString s => negb (String.eqb s "")
  | JsObject _ => true
  end.

(** ToString, as used by a template literal. *)
Definition to_string (v : JsValue) : string :=
  match v with
  | JsUndefined => "undefined"
  | JsNull => "null"
  | JsBool true => "true"
  | JsBool false => "false"
  | JsNumber n _ => pretty n
  | JsString s => s
  | JsObject _ => "[object Object]"
  end.

(** An [Error] object: the two properties the catch blocks read. *)
Record JsError : Type := mkJsError { message : string; stack : string }.

(** [new Error(msg)]; the engine's stack text starts with the message. *)
Definition new_Error (msg : string) : JsError :=
  {| message := msg; stack := "Error: " +:+ msg |}.

(** A promise of the outside, settled: resolved with a value or rejected. *)
Inductive outcome (A : Type) : Type :=
| Resolved (a : A)
| Rejected (e : JsError).
Arguments Resolved {A} a.
Arguments Rejected {A} e.

Fixpoint assoc (k : string) (props : list (string * JsValue)) : JsValue :=
  match props with
  | [] => JsUndefined
  | (k', v) :: rest => if String.eqb k k' then v else assoc k rest
  end.

(** [v.k]: a TypeError on [null] and [undefined], [undefined] on a primitive
    or on an object without the property. *)
Definition get_prop (v : JsValue) (k : string) : outcome JsValue :=
  match v with
  | JsUndefined =>
      Rejected (new_Error ("Cannot read properties of undefined (reading '" +:+ k +:+ "')"))
  | JsNull =>
      Rejected (new_Error ("Cannot read properties of null (reading '" +:+ k +:+ "')"))
  | JsObject props => Resolved (assoc k props)
  | _ => Resolved JsUndefined
  end.

(** ** HTTP requests and responses, as [fetch] sees them *)

Record FormPart : Type := mkFormPart {
  part_field : string;        (* formData.append('file', ...) *)
  part_stream : string;       (* the path the read stream was opened on *)
  part_filename : string;
  part_contentType : string;
  part_knownLength : N
}.

Inductive Body : Type :=
| BodyJson (props : list (string * string))   (* JSON.stringify of a flat object *)
| BodyForm (parts : list FormPart).           (* a FormData *)

Record Request : Type := mkRequest {
  req_url : string;
  req_method : string;
  req_headers : list (string * string);
  req_body : Body
}.

Record Response : Type := mkResponse {
  status : N;
  statusText : string;
  text : outcome string;      (* await response.text() *)
  json : outcome JsValue      (* await response.json() *)
}.

(** [response.ok] of node-fetch: the status is in the range 200-299. *)
Definition ok (r : Response) : bool := (200 <=? status r)%N && (status r <? 300)%N.

(** ** Configuration (the [config] object, after validation) *)

Record Config : Type := mkConfig {
  watchDirectory : string;
  fileExtension : string;
  apiBaseUrl : string;
  clientId : string;
  clientSecret : string;
  apiKey : string;
  instanceId : string;
  integrationServerId : string;
  debounceMs : N
}.

(** ** The outside world *)

(** The k-th call of each kind and what it answers. *)
Record Env : Type := mkEnv {
  env_now : nat -> N;                                   (* Date.now() *)
  env_token : nat -> Request -> outcome Response;       (* fetch(tokenUrl, ...) *)
  env_upload : nat -> Request -> outcome Response;      (* fetch(apiUrl, ...) *)
  env_createReadStream : nat -> string -> outcome unit; (* fs.createReadStream *)
  env_statSync : nat -> string -> outcome N             (* fs.statSync(...).size *)
}.

Inductive ConsoleArg : Type :=
| Text (s : string)
| JsonText (v : JsValue).   (* JSON.stringify(v, null, 2) *)

(** What the code did, in the order it did it. [Cleared] records the two
    assignments [cachedToken = null; tokenExpiry = null]. *)
Inductive Event : Type :=
| DateNow (t : N)
| FetchToken (req : Request)
| FetchUpload (req : Request)
| CreateReadStream (path : string)
| StatSync (path : string)
| ConsoleLog (args : list ConsoleArg)
| ConsoleError (args : list ConsoleArg)
| Cleared.

Definition is_DateNow (e : Event) : bool :=
  match e with DateNow _ => true | _ => false end.
Definition is_FetchToken (e : Event) : bool :=
  match e with FetchToken _ => true | _ => false end.
Definition is_FetchUpload (e : Event) : bool :=
  match e with FetchUpload _ => true | _ => false end.
Definition is_CreateReadStream (e : Event) : bool :=
  match e with CreateReadStream _ => true | _ => false end.
Definition is_StatSync (e : Event) : bool :=
  match e with StatSync _ => true | _ => false end.
Definition is_ConsoleError (e : Event) : bool :=
  match e with ConsoleError _ => true | _ => false end.
Definition is_Cleared (e : Event) : bool :=
  match e with Cleared => true | _ => false end.

(** How many events of one kind a history holds. *)
Fixpoint calls (kind : Event -> bool) (tr : list Event) : nat :=
  match tr with
  | [] => 0
  | e :: rest => if kind e then S (calls kind rest) else calls kind rest
  end.

(** The module state of [index.js] and the history so far, newest event
    first. *)
Record World : Type := mkWorld {
  cachedToken : JsValue;        (* let cachedToken = null *)
  tokenExpiry : option N;       (* let tokenExpiry = null; None is null *)
  trace : list Event
}.

Definition initial_world : World :=
  {| cachedToken := JsNull; tokenExpiry := None; trace := [] |}.

(** ** The monad of the asynchronous functions *)

(** How a call ends: it returns, it throws (the promise rejects), or it is
    still running when the allowed number of passes is used up. *)
Inductive Completion (A : Type) : Type :=
| Returns (a : A)
| Throws (e : JsError)
| Unfinished.
Arguments Returns {A} a.
Arguments Throws {A} e.
Arguments Unfinished {A}.

Definition M (A : Type) : Type := World -> Completion A * World.

Definition ret {A} (a : A) : M A := fun w => (Returns a, w).

Definition bind {A B} (m : M A) (k : A -> M B) : M B :=
  fun w =>
    match m w with
    | (Returns a, w') => k a w'
    | (Throws e, w') => (Throws e, w')
    | (Unfinished, w') => (Unfinished, w')
    end.

Definition throw {A} (e : JsError) : M A := fun w => (Throws e, w).

Definition unfinished {A} : M A := fun w => (Unfinished, w).

(** [try { body } catch (error) { handler error }] *)
Definition try_catch {A} (body : M A) (handler : JsError -> M A) : M A :=
  fun w =>
    match body w with
    | (Throws e, w') => handler e w'
    | r => r
    end.

Notation "'let*' x := m 'in' k" := (bind m (fun x => k))
  (at level 10, x name, m at level 100, k at level 200).
Notation "m ;; k" := (bind m (fun _ => k))
  (at level 100, k at level 200, right associativity).

Definition emit (e : Event) : M unit :=
  fun w => (Returns tt,
            {| cachedToken := cachedToken w; tokenExpiry := tokenExpiry w;
               trace := e :: trace w |}).

Definition get_cachedToken : M JsValue := fun w => (Returns (cachedToken w), w).
Definition get_tokenExpiry : M (option N) := fun w => (Returns (tokenExpiry w), w).

Definition set_cachedToken (v : JsValue) : M unit :=
  fun w => (Returns tt,
            {| cachedToken := v; tokenExpiry := tokenExpiry w; trace := trace w |}).

Definition set_tokenExpiry (e : option N) : M unit :=
  fun w => (Returns tt,
            {| cachedToken := cachedToken w; tokenExpiry := e; trace := trace w |}).

(** [await p] for a promise of the outside. *)
Definition await {A} (p : outcome A) : M A :=
  match p with
  | Resolved a => ret a
  | Rejected e => throw e
  end.

Definition console_log (args : list ConsoleArg) : M unit := emit (ConsoleLog args).
Definition console_error (args : list ConsoleArg) : M unit := emit (ConsoleError args).

(** ** [path.basename] (POSIX): trailing slashes are dropped, then the part
    after the last slash is taken. *)

Definition is_slash (c : ascii) : bool := Ascii.eqb c "/"%char.

Fixpoint skip_slashes (cs : list ascii) : list ascii :=
  match cs with
  | c :: rest => if is_slash c then skip_slashes rest else cs
  | [] => []
  end.

Fixpoint until_slash (cs : list ascii) : list ascii :=
  match cs with
  | c :: rest => if is_slash c then [] else c :: until_slash rest
  | [] => []
  end.

Definition basename (p : string) : string :=
  string_of_list_ascii
    (rev (until_slash (skip_slashes (rev (list_ascii_of_string p))))).

(** ** The program *)

Section Program.

Variable config : Config.
Variable env : Env.

(** [Date.now()] *)
Definition date_now : M N :=
  fun w =>
    let t := env_now env (calls is_DateNow (trace w)) in
    (emit (DateNow t) ;; ret t) w.

(** [await fetch(tokenUrl, ...)] *)
Definition fetch_token (req : Request) : M Response :=
  fun w =>
    let answer := env_token env (calls is_FetchToken (trace w)) req in
    (emit (FetchToken req) ;; await answer) w.

(** [await fetch(apiUrl, ...)] *)
Definition fetch_upload (req : Request) : M Response :=
  fun w =>
    let answer := env_upload env (calls is_FetchUpload (trace w)) req in
    (emit (FetchUpload req) ;; await answer) w.

(** [fs.createReadStream(filePath)]: the call itself.  It returns a stream
    at once and the host opens the file later; [Rejected] is an exception
    the call throws (an argument it does not take).  Whether the stream
    fails after the call is not known to the caller: the pass attaches no
    listener to it, and what a failure does then is the event [StreamError]
    of the process. *)
Definition createReadStream (filePath : string) : M unit :=
  fun w =>
    let answer := env_createReadStream env (calls is_CreateReadStream (trace w)) filePath in
    (emit (CreateReadStream filePath) ;; await answer) w.

(** [fs.statSync(filePath).size] *)
Definition statSync (filePath : string) : M N :=
  fun w =>
    let answer := env_statSync env (calls is_StatSync (trace w)) filePath in
    (emit (StatSync filePath) ;; await answer) w.

(** [cachedToken && tokenExpiry && Date.now() < tokenExpiry]: the clock is
    read only when both variables are truthy. *)
Definition cache_valid : M bool :=
  let* tok := get_cachedToken in
  if truthy tok then
    let* expiry := get_tokenExpiry in
    match expiry with
    | Some e =>
        if negb (e =? 0)%N then
          let* t := date_now in ret (t <? e)%N
        else ret false
    | None => ret false
    end
  else ret false.

Definition token_request : Request :=
  {| req_url := apiBaseUrl config +:+ "/api/v1/tokens";
     req_method := "POST";
     req_headers :=
       [ ("X-IBM-Instance-Id", instanceId config);
         ("Content-Type", "application/json");
         ("Accept", "application/json");
         ("X-IBM-Client-Id", clientId config);
         ("X-IBM-Client-Secret", clientSecret config) ];
     req_body := BodyJson [ ("apiKey", apiKey config) ] |}.

(** The cached validity window: 50 minutes, in milliseconds. *)
Definition token_ttl : N := 50 * 60 * 1000.

Definition generateToken : M JsValue :=
  let* valid := cache_valid in
  if valid then
    console_log [Text "🔑 Using cached authentication token"] ;;
    get_cachedToken
  else
    try_catch
      (console_log [Text "🔑 Generating new authentication token..."] ;;
       let* response := fetch_token token_request in
       (if negb (ok response) then
          let* errorText := await (text response) in
          throw (new_Error ("Token generation failed: " +:+ pretty (status response)
                            +:+ " " +:+ statusText response +:+ " - " +:+ errorText))
        else ret tt) ;;
       let* tokenData := await (json response) in
       let* access_token := await (get_prop tokenData "access_token") in
       set_cachedToken access_token ;;
       let* t := date_now in
       set_tokenExpiry (Some (t + token_ttl)%N) ;;
       console_log [Text "✅ Authentication token generated successfully"] ;;
       get_cachedToken)
      (fun error =>
         console_error [Text "❌ Error generating token:"; Text (message error)] ;;
         throw error).

(** [cachedToken = null; tokenExpiry = null;] *)
Definition invalidate : M unit :=
  set_cachedToken JsNull ;;
  set_tokenExpiry None ;;
  emit Cleared.

Definition upload_request (fileName filePath : string) (token : JsValue) (size : N) : Request :=
  {| req_url := apiBaseUrl config +:+ "/api/v1/bar-files/" +:+ fileName +:+ ".bar";
     req_method := "PUT";
     req_headers :=
       [ ("X-IBM-Instance-Id", instanceId config);
         ("X-IBM-Client-Id", clientId config);
         ("authorization", "Bearer " +:+ to_string token);
         ("Content-Type", "application/octet-stream") ];
     req_body :=
       BodyForm [ {| part_field := "file";
                     part_stream := filePath;
                     part_filename := fileName;
                     part_contentType := "application/octet-stream";
                     part_knownLength := size |} ] |}.

(** One pass through the body of [uploadBarFile].  The result is [true] when
    the pass ends in [return uploadBarFile(filePath)]: the promise of the
    inner call is handed to the caller without being awaited, so the inner
    call runs after this pass has left its [try] block. *)
Definition uploadBarFile_pass (filePath : string) : M bool :=
  let fileName := basename filePath in
  try_catch
    (console_log [Text ("📤 Uploading " +:+ fileName +:+ "...")] ;;
     let* token := generateToken in
     let* fileStream := createReadStream filePath in
     let* size := statSync filePath in
     let* response := fetch_upload (upload_request fileName filePath token size) in
     if ok response then
       let* result := await (json response) in
       console_log [Text ("✅ Successfully uploaded " +:+ fileName)] ;;
       console_log [Text "   Response:"; JsonText result] ;;
       ret false
     else
       let* errorText := await (text response) in
       console_error [Text ("❌ Failed to upload " +:+ fileName)] ;;
       console_error [Text ("   Status: " +:+ pretty (status response)
                            +:+ " " +:+ statusText response)] ;;
       console_error [Text ("   Error: " +:+ errorText)] ;;
       let* tok := get_cachedToken in
       if (status response =? 401)%N && truthy tok then
         console_log [Text "🔄 Token may have expired, clearing cache and retrying..."] ;;
         invalidate ;;
         ret true
       else ret false)
    (fun error =>
       console_error [Text ("❌ Error uploading " +:+ fileName +:+ ":"); Text (message error)] ;;
       (if negb (String.eqb (stack error) "") then console_error [Text (stack error)]
        else ret tt) ;;
       ret false).

(** [uploadBarFile(filePath)], allowed at most [passes] passes through its
    body. *)
Fixpoint uploadBarFile (passes : nat) (filePath : string) : M unit :=
  match passes with
  | 0 => unfinished
  | S passes' =>
      let* again := uploadBarFile_pass filePath in
      if again then uploadBarFile passes' filePath else ret tt
  end.

End Program.

(** ** The host's timers and the debouncer *)

(** An armed timer of the host.  Every timer of this program is armed by
    [handleFileChange], so its callback is known by the path it closes
    over.  The host is taken to fire a timer exactly when its delay has
    elapsed on the virtual clock. *)
Record Timer : Type := mkTimer {
  timer_id : nat;        (* the handle setTimeout returned *)
  timer_due : N;         (* virtual time at which it fires *)
  timer_path : string    (* filePath of the callback *)
}.

(** One invocation [uploadBarFile(filePath)] from a timer callback. *)
Record Start : Type := mkStart {
  start_time : N;
  start_path : string;
  start_entry : bool     (* debounceTimers.has(filePath) at that moment *)
}.

(** The process between two turns of its event loop. *)
Record Loop : Type := mkLoop {
  clock : N;                          (* virtual time, in milliseconds *)
  pending : list Timer;               (* armed timers, in firing order *)
  next_timer : nat;                   (* the next fresh handle *)
  debounceTimers : gmap string nat;   (* const debounceTimers = new Map() *)
  started : list Start;               (* uploads begun, newest first *)
  running : list string;              (* uploads begun and not yet settled *)
  watcher_closed : bool;              (* watcher.close() was called *)
  exit_status : option Z              (* the process has ended, with this status *)
}.

Definition initial_loop : Loop :=
  {| clock := 0; pending := []; next_timer := 0; debounceTimers := ∅;
     started := []; running := []; watcher_closed := false; exit_status := None |}.

Definition with_clock (t : N) (st : Loop) : Loop :=
  {| clock := t; pending := pending st; next_timer := next_timer st;
     debounceTimers := debounceTimers st; started := started st;
     running := running st; watcher_closed := watcher_closed st;
     exit_status := exit_status st |}.

Definition with_pending (ts : list Timer) (st : Loop) : Loop :=
  {| clock := clock st; pending := ts; next_timer := next_timer st;
     debounceTimers := debounceTimers st; started := started st;
     running := running st; watcher_closed := watcher_closed st;
     exit_status := exit_status st |}.

Definition with_debounceTimers (m : gmap string nat) (st : Loop) : Loop :=
  {| clock := clock st; pending := pending st; next_timer := next_timer st;
     debounceTimers := m; started := started st;
     running := running st; watcher_closed := watcher_closed st;
     exit_status := exit_status st |}.

(** Timers fire in the order of their due times, and in the order they were
    armed when the due times are equal. *)
Fixpoint arm (t : Timer) (ts : list Timer) : list Timer :=
  match ts with
  | [] => [t]
  | u :: rest =>
      if (timer_due t <? timer_due u)%N then t :: ts else u :: arm t rest
  end.

(** The longest delay a timer of the host takes: 2^31 - 1 milliseconds. *)
Definition TIMEOUT_MAX : N := 2147483647.

(** The delay the host gives a timer: a delay below 1 or above
    [TIMEOUT_MAX] is set to 1 millisecond.  (The host does the same with a
    delay that is negative or not a number; a delay being an [N] here, 0 is
    the one value of that kind.) *)
Definition timer_delay (delay : N) : N :=
  if (1 <=? delay)%N && (delay <=? TIMEOUT_MAX)%N then delay else 1%N.

(** [setTimeout(() => {...filePath...}, delay)] *)
Definition setTimeout (filePath : string) (delay : N) (st : Loop) : nat * Loop :=
  let id := next_timer st in
  (id,
   {| clock := clock st;
      pending := arm {| timer_id := id; timer_due := clock st + timer_delay delay;
                        timer_path := filePath |} (pending st);
      next_timer := S id;
      debounceTimers := debounceTimers st; started := started st;
      running := running st; watcher_closed := watcher_closed st;
      exit_status := exit_status st |}).

(** [clearTimeout(id)] *)
Definition clearTimeout (id : nat) (st : Loop) : Loop :=
  with_pending (filter (fun t => timer_id t ≠ id) (pending st)) st.

(** [handleFileChange(filePath)].  The process state keeps no console, so
    the log line at the end is left out. *)
Definition handleFileChange (config : Config) (filePath : string) (st : Loop) : Loop :=
  let st1 :=
    match debounceTimers st !! filePath with   (* debounceTimers.has(filePath) *)
    | Some id => clearTimeout id st            (* clearTimeout(debounceTimers.get(filePath)) *)
    | None => st
    end in
  let '(timer, st2) := setTimeout filePath (debounceMs config) st1 in
  with_debounceTimers (<[filePath := timer]> (debounceTimers st2)) st2.

(** [uploadBarFile(filePath)] called and not awaited: the upload is begun
    and runs on between later turns of the loop.  What it does to the
    process later is an event of the loop: its promise settles
    ([UploadSettled]), or a read stream it left without a listener fails
    ([StreamError]). *)
Definition begin_upload (filePath : string) (st : Loop) : Loop :=
  {| clock := clock st; pending := pending st; next_timer := next_timer st;
     debounceTimers := debounceTimers st;
     started := {| start_time := clock st; start_path := filePath;
                   start_entry := bool_decide (is_Some (debounceTimers st !! filePath)) |}
                :: started st;
     running := filePath :: running st;
     watcher_closed := watcher_closed st; exit_status := exit_status st |}.

(** The callback [() => { debounceTimers.delete(filePath); uploadBarFile(filePath); }] *)
Definition timer_callback (filePath : string) (st : Loop) : Loop :=
  begin_upload filePath
    (with_debounceTimers (delete filePath (debounceTimers st)) st).

(** The host fires, in order, the timers that are due by [until]. *)
Fixpoint fire_due (until : N) (ts : list Timer) (st : Loop) : Loop :=
  match ts with
  | t :: rest =>
      if (timer_due t <=? until)%N then
        fire_due until rest
          (timer_callback (timer_path t)
             (with_clock (N.max (clock st) (timer_due t)) (with_pending rest st)))
      else st
  | [] => st
  end.

Definition elapse (dt : N) (st : Loop) : Loop :=
  let until := (clock st + dt)%N in
  with_clock until (fire_due until (pending st) st).

Fixpoint remove_first (p : string) (ps : list string) : list string :=
  match ps with
  | [] => []
  | q :: rest => if String.eqb p q then rest else q :: remove_first p rest
  end.

(** The promise of an upload settles. *)
Definition settle_upload (filePath : string) (st : Loop) : Loop :=
  {| clock := clock st; pending := pending st; next_timer := next_timer st;
     debounceTimers := debounceTimers st; started := started st;
     running := remove_first filePath (running st);
     watcher_closed := watcher_closed st; exit_status := exit_status st |}.

(** The SIGINT handler: [watcher.close(); process.exit(0);] (after a log
    line).  It clears no timer and leaves [debounceTimers] as it is. *)
Definition on_SIGINT (st : Loop) : Loop :=
  {| clock := clock st; pending := pending st; next_timer := next_timer st;
     debounceTimers := debounceTimers st; started := started st;
     running := running st;
     watcher_closed := true; exit_status := Some 0%Z |}.

(** SIGTERM: the program installs no listener for it, so the host's default
    handler ends the process, with status 128 + 15.  No line of the program
    runs: the watcher is not closed by it and no timer is cleared. *)
Definition on_SIGTERM (st : Loop) : Loop :=
  {| clock := clock st; pending := pending st; next_timer := next_timer st;
     debounceTimers := debounceTimers st; started := started st;
     running := running st;
     watcher_closed := watcher_closed st; exit_status := Some 143%Z |}.

(** The ['error'] event of a read stream that has no listener.
    [uploadBarFile] opens the stream with [fs.createReadStream] and hands it
    to the form only after [fs.statSync]; when [statSync] throws, the stream
    is left as it is, and if it then fails to open the file the host throws
    its error as an uncaught exception: the process ends with status 1.
    Only an upload that was started opens streams. *)
Definition on_stream_error (filePath : string) (st : Loop) : Loop :=
  if bool_decide (filePath ∈ start_path <$> started st) then
    {| clock := clock st; pending := pending st; next_timer := next_timer st;
       debounceTimers := debounceTimers st; started := started st;
       running := running st;
       watcher_closed := watcher_closed st; exit_status := Some 1%Z |}
  else st.

(** What can happen to the process between two turns. [FileChanged] is an
    [add] or [change] event of the watcher whose path has the configured
    extension. *)
Inductive LoopEvent : Type :=
| FileChanged (filePath : string)
| Elapse (dt : N)
| UploadSettled (filePath : string)
| Signal_SIGINT
| Signal_SIGTERM
| StreamError (filePath : string).

(** After [process.exit] nothing runs any more. *)
Definition step (config : Config) (st : Loop) (ev : LoopEvent) : Loop :=
  match exit_status st with
  | Some _ => st
  | None =>
      match ev with
      | FileChanged filePath => handleFileChange config filePath st
      | Elapse dt => elapse dt st
      | UploadSettled filePath => settle_upload filePath st
      | Signal_SIGINT => on_SIGINT st
      | Signal_SIGTERM => on_SIGTERM st
      | StreamError filePath => on_stream_error filePath st
      end
  end.

Definition run (config : Config) (st : Loop) (evs : list LoopEvent) : Loop :=
  fold_left (step config) evs st.

(** The uploads of [p] among a list of starts. *)
Definition starts_of (p : string) (ss : list Start) : list Start :=
  filter (fun s => start_path s = p) ss.

(** The armed timers whose callback uploads [p]. *)
Definition timers_of (p : string) (ts : list Timer) : list Timer :=
  filter (fun t => timer_path t = p) ts.

(** An event that is neither a change of [p] nor one that can end the
    process (a signal, a stream that fails unheard). *)
Definition leaves_alone (p : string) (ev : LoopEvent) : bool :=
  match ev with
  | FileChanged q => negb (String.eqb q p)
  | Signal_SIGINT | Signal_SIGTERM | StreamError _ => false
  | Elapse _ | UploadSettled _ => true
  end.

(** The time that passes during a list of events. *)
Fixpoint elapsed (evs : list LoopEvent) : N :=
  match evs with
  | [] => 0
  | Elapse dt :: rest => dt + elapsed rest
  | _ :: rest => elapsed rest
  end.

(** A stretch of events that leave [p] alone. *)
Definition quiet (p : string) (evs : list LoopEvent) : Prop :=
  Forall (fun ev => leaves_alone p ev = true) evs.

(** ... and take less than [limit]. *)
Definition short_gap (p : string) (limit : N) (evs : list LoopEvent) : Prop :=
  quiet p evs /\ (elapsed evs < limit)%N.

(** A burst of changes of [p] with what happens between them: a change,
    then for each gap its events and the next change. *)
Fixpoint burst (p : string) (gaps : list (list LoopEvent)) : list LoopEvent :=
  match gaps with
  | [] => [FileChanged p]
  | gap :: rest => FileChanged p :: gap ++ burst p rest
  end.

Definition sum_N (l : list N) : N := fold_right N.add 0%N l.

(** The time from the first change of a burst to its last. *)
Definition burst_length (gaps : list (list LoopEvent)) : N :=
  sum_N (elapsed <$> gaps).

(** ** Notions the statements use *)

(** The test [generateToken] makes on entry, as a function of the state and
    of the clock read it would get. *)
Definition cache_fresh (env : Env) (w : World) : bool :=
  truthy (cachedToken w) &&
  match tokenExpiry w with
  | Some e => negb (e =? 0)%N && (env_now env (calls is_DateNow (trace w)) <? e)%N
  | None => false
  end.

(** The token step of a pass of [uploadBarFile]: the first log line and the
    call of [generateToken]. *)
Definition pass_token (config : Config) (env : Env) (filePath : string) (w : World)
  : Completion JsValue :=
  fst ((console_log [Text ("📤 Uploading " +:+ basename filePath +:+ "...")] ;;
        generateToken config env) w).

(** The upload call answers something other than a 401. *)
Definition not_401 (answer : outcome Response) : Prop :=
  match answer with
  | Resolved r => status r ≠ 401%N
  | Rejected _ => True
  end.

(** The states of the module the exported functions can bring about. *)
Inductive reachable (config : Config) (env : Env) : World -> Prop :=
| reach_initial : reachable config env initial_world
| reach_generateToken w r w' :
    reachable config env w ->
    generateToken config env w = (r, w') ->
    reachable config env w'
| reach_pass w filePath r w' :
    reachable config env w ->
    uploadBarFile_pass config env filePath w = (r, w') ->
    reachable config env w'
| reach_uploadBarFile w passes filePath r w' :
    reachable config env w ->
    uploadBarFile config env passes filePath w = (r, w') ->
    reachable config env w'.

(** The invariant of the token state as it is worded: a value is present
    exactly when an expiry is present and lies after the clock read [t]. *)
Definition token_state_invariant (w : World) (t : N) : Prop :=
  cachedToken w ≠ JsNull <-> exists e, tokenExpiry w = Some e /\ (t < e)%N.

(** The token endpoint grants every request a token that is truthy. *)
Definition token_endpoint_grants (env : Env) : Prop :=
  forall k req, exists resp v tok,
    env_token env k req = Resolved resp /\ ok resp = true /\
    json resp = Resolved v /\ get_prop v "access_token" = Resolved tok /\
    truthy tok = true.

(** Every file can be opened and has a size. *)
Definition files_readable (env : Env) : Prop :=
  forall k filePath,
    env_createReadStream env k filePath = Resolved tt /\
    exists size, env_statSync env k filePath = Resolved size.

(** The k-th upload call is answered 401, with a readable body. *)
Definition answers_401 (env : Env) (k : nat) : Prop :=
  forall req, exists resp body,
    env_upload env k req = Resolved resp /\ status resp = 401%N /\
    text resp = Resolved body.

(** The k-th upload call is answered in the range 200-299, with a body that
    parses to [result]. *)
Definition answers_ok (env : Env) (k : nat) (result : JsValue) : Prop :=
  forall req, exists resp,
    env_upload env k req = Resolved resp /\ ok resp = true /\
    json resp = Resolved result.

(** What the token state does keep: a stored value comes with an expiry
    that was set by an acquisition. *)
Definition cache_consistent (w : World) : Prop :=
  cachedToken w <> JsNull ->
  exists e, tokenExpiry w = Some e /\ (token_ttl <= e)%N.

(** [a] fires no later than [b]. *)
Definition due_le (a b : Timer) : Prop := (timer_due a <= timer_due b)%N.

(** The shape of the process state that every step keeps. *)
Record loop_wf (st : Loop) : Prop := mk_loop_wf {
  wf_sorted : StronglySorted due_le (pending st);
  wf_future : Forall (fun t => (clock st <= timer_due t)%N) (pending st);
  wf_index : forall t, t ∈ pending st ->
             debounceTimers st !! timer_path t = Some (timer_id t);
  wf_entries : forall p id, debounceTimers st !! p = Some id ->
               exists t, t ∈ pending st /\ timer_id t = id /\ timer_path t = p;
  wf_fresh : Forall (fun t => timer_id t < next_timer st) (pending st);
  wf_ids : NoDup (timer_id <$> pending st);
  wf_starts : Forall (fun s => start_entry s = false) (started st)
}.

(** The upload a timer starts when it fires on time. *)
Definition start_of (t : Timer) : Start :=
  {| start_time := timer_due t; start_path := timer_path t; start_entry := false |}.

(** The timers [handleFileChange] leaves armed when it clears the old timer
    of [p]. *)
Definition kept_timers (p : string) (st : Loop) : list Timer :=
  match debounceTimers st !! p with
  | Some id => filter (fun t => timer_id t ≠ id) (pending st)
  | None => pending st
  end.

(** The states the process can be in. *)
Definition loop_reachable (config : Config) (st : Loop) : Prop :=
  exists evs, st = run config initial_loop evs.

(** A delay the host takes as it is given. *)
Definition valid_delay (delay : N) : Prop := (1 <= delay <= TIMEOUT_MAX)%N.

(** A shutdown as it is worded: every pending timer is cancelled, the
    watcher is closed, and the process has exited with status 0. *)
Definition graceful_shutdown (st : Loop) : Prop :=
  pending st = [] /\ watcher_closed st = true /\ exit_status st = Some 0%Z.

(** While an upload of a path runs, the map has no entry for that path. *)
Definition no_entry_while_running (st : Loop) : Prop :=
  forall p, p ∈ running st -> debounceTimers st !! p = None.

Definition example_changes : list LoopEvent :=
  [FileChanged "/watch/a.bar"; Elapse 1000; Elapse 250; FileChanged "/watch/a.bar"].

(** ** Concrete configurations and environments *)

Definition example_config : Config :=
  {| watchDirectory := "/watch"; fileExtension := ".bar";
     apiBaseUrl := "https://api.example.com";
     clientId := "client"; clientSecret := "secret"; apiKey := "key";
     instanceId := "instance"; integrationServerId := "server";
     debounceMs := 1000 |}.

Definition answer (st : N) (reason : string) : Response :=
  {| status := st; statusText := reason; text := Resolved "diagnostic";
     json := Resolved (JsObject [("status", JsString "success")]) |}.

Definition token_granted (tok : string) : Response :=
  {| status := 200; statusText := "OK"; text := Resolved "";
     json := Resolved (JsObject [("access_token", JsString tok)]) |}.

(** The clock advances by [tick] per read, every token request is granted
    "tok-A", the file has 1024 bytes, and the k-th upload call is answered
    with the status [upload_status k]. *)
Definition example_env (tick : N) (upload_status : nat -> N) : Env :=
  {| env_now := fun k => (tick * N.of_nat k)%N;
     env_token := fun _ _ => Resolved (token_granted "tok-A");
     env_upload := fun k _ => Resolved (answer (upload_status k) "");
     env_createReadStream := fun _ _ => Resolved tt;
     env_statSync := fun _ _ => Resolved 1024%N |}.

(** Upload answers: 401 then 200. *)
Definition status_401_200 (k : nat) : N :=
  match k with 0 => 401 | _ => 200 end.

(** Upload answers: 401, 401, then 200. *)
Definition status_401_401_200 (k : nat) : N :=
  match k with 0 | 1 => 401 | _ => 200 end.

(** Upload answers: always 401. *)
Definition status_always_401 (k : nat) : N := 401.

(** The token endpoint refuses with a 403. *)
Definition env_token_refused : Env :=
  {| env_now := fun k => (1000 * N.of_nat k)%N;
     env_token := fun _ _ => Resolved (answer 403 "Forbidden");
     env_upload := fun _ _ => Resolved (answer 200 "OK");
     env_createReadStream := fun _ _ => Resolved tt;
     env_statSync := fun _ _ => Resolved 1024%N |}.

(** The state after one successful [generateToken] under a clock that
    advances by the whole validity window per read. *)
Definition stale_env : Env := example_env token_ttl status_401_200.
Definition stale_world : World :=
  snd (generateToken example_config stale_env initial_world).

(** ** More notions and environments *)

Definition returned {A} (c : Completion A) : bool :=
  match c with Returns _ => true | _ => false end.

Definition resolved {A} (o : outcome A) : bool :=
  match o with Resolved _ => true | Rejected _ => false end.

(** The token endpoint answers 200 with a JSON object that has no
    [access_token]. *)
Definition env_token_empty : Env :=
  {| env_now := fun k => (1000 * N.of_nat k)%N;
     env_token := fun _ _ =>
       Resolved {| status := 200; statusText := "OK"; text := Resolved "{}";
                   json := Resolved (JsObject []) |};
     env_upload := fun _ _ => Resolved (answer 401 "Unauthorized");
     env_createReadStream := fun _ _ => Resolved tt;
     env_statSync := fun _ _ => Resolved 1024%N |}.

(** The file is gone: [fs.createReadStream] still returns a stream, and
    [fs.statSync] throws. *)
Definition env_file_missing : Env :=
  {| env_now := fun k => (1000 * N.of_nat k)%N;
     env_token := fun _ _ => Resolved (token_granted "tok-A");
     env_upload := fun _ _ => Resolved (answer 200 "OK");
     env_createReadStream := fun _ _ => Resolved tt;
     env_statSync := fun _ _ => Rejected (new_Error "ENOENT: no such file or directory") |}.

(** What the process shows of one path: the time, when the timers armed for
    the path are due, the uploads of the path so far, and whether the process
    has exited. *)
Definition path_view (p : string) (st : Loop) : N * list N * list Start * option Z :=
  (clock st, timer_due <$> timers_of p (pending st),
   starts_of p (started st), exit_status st).

(** A stretch of events that leave [p] alone and take [limit] or more. *)
Definition long_gap (p : string) (limit : N) (evs : list LoopEvent) : Prop :=
  quiet p evs /\ (limit <= elapsed evs)%N.

(** Changes of [p], each followed by what happens until the next one. *)
Fixpoint spaced (p : string) (gaps : list (list LoopEvent)) : list LoopEvent :=
  match gaps with
  | [] => []
  | gap :: rest => FileChanged p :: gap ++ spaced p rest
  end.

(** The uploads of [p] that changes at [t], [t + wait1], ... start when each
    change is followed by its full debounce interval; newest first. *)
Fixpoint spaced_starts (p : string) (interval t : N) (waits : list N) : list Start :=
  match waits with
  | [] => []
  | wait :: rest =>
      spaced_starts p interval (t + wait) rest
      ++ [ {| start_time := t + interval; start_path := p; start_entry := false |} ]
  end.

(** ** [path.extname] (POSIX) and the watcher's handlers *)

Definition is_dot (c : ascii) : bool := Ascii.eqb c "."%char.

(** The characters of the basename, last first. *)
Definition rev_basename (p : string) : list ascii :=
  until_slash (skip_slashes (rev (list_ascii_of_string p))).

(** Splits at the last dot of the basename: what follows the dot and what
    precedes it, both last character first. *)
Fixpoint until_dot (cs : list ascii) : option (list ascii * list ascii) :=
  match cs with
  | [] => None
  | c :: rest =>
      if is_dot c then Some ([], rest)
      else match until_dot rest with
           | Some (ext, stem) => Some (c :: ext, stem)
           | None => None
           end
  end.

(** [path.extname]: from the last dot of the basename to its end; empty when
    the basename has no dot, when its last dot is its first character, and
    for [..]. *)
Definition extname (p : string) : string :=
  match until_dot (rev_basename p) with
  | None => ""
  | Some (ext, stem) =>
      match ext, stem with
      | _, [] => ""
      | [], [c] => if is_dot c then "" else "."
      | _, _ => string_of_list_ascii (rev (ext ++ ["."%char]))
      end
  end.

(** What the watcher tells the process. *)
Inductive WatcherEvent : Type :=
| Watcher_add (filePath : string)
| Watcher_change (filePath : string)
| Watcher_error (error : JsError)
| Watcher_ready.

(** The handlers [initializeWatcher] installs on the watcher.  [add] and
    [change] forward a path with the configured extension to
    [handleFileChange]; [error] and [ready] only write a line. *)
Definition on_watcher_event (config : Config) (wev : WatcherEvent) (st : Loop) : Loop :=
  match wev with
  | Watcher_add filePath | Watcher_change filePath =>
      if String.eqb (extname filePath) (fileExtension config)
      then handleFileChange config filePath st
      else st
  | Watcher_error _ | Watcher_ready => st
  end.

(** [initializeWatcher()] up to the creation of the watcher: the process
    exits with status 1 when [fs.existsSync(config.watchDirectory)] is
    false, and otherwise goes on with no timer armed. *)
Definition initializeWatcher (directory_exists : bool) : Loop :=
  if directory_exists then initial_loop
  else {| clock := 0; pending := []; next_timer := 0; debounceTimers := ∅;
          started := []; running := []; watcher_closed := false;
          exit_status := Some 1%Z |}.

(** What can happen to the watching process between two turns. *)
Inductive ProcessEvent : Type :=
| FromWatcher (wev : WatcherEvent)
| TimePasses (dt : N)
| UploadEnds (filePath : string)
| SIGINT
| SIGTERM
| StreamFails (filePath : string).

Definition process_step (config : Config) (st : Loop) (pev : ProcessEvent) : Loop :=
  match exit_status st with
  | Some _ => st
  | None =>
      match pev with
      | FromWatcher wev => on_watcher_event config wev st
      | TimePasses dt => elapse dt st
      | UploadEnds filePath => settle_upload filePath st
      | SIGINT => on_SIGINT st
      | SIGTERM => on_SIGTERM st
      | StreamFails filePath => on_stream_error filePath st
      end
  end.

Definition process_run (config : Config) (st : Loop) (pevs : list ProcessEvent) : Loop :=
  fold_left (process_step config) pevs st.

(** The same events as the debouncer sees them: a watcher event that passes
    the extension filter is a change of its path, the others are nothing. *)
Definition seen_by_debouncer (config : Config) (pev : ProcessEvent) : list LoopEvent :=
  match pev with
  | FromWatcher (Watcher_add filePath) | FromWatcher (Watcher_change filePath) =>
      if String.eqb (extname filePath) (fileExtension config)
      then [FileChanged filePath] else []
  | FromWatcher (Watcher_error _) | FromWatcher Watcher_ready => []
  | TimePasses dt => [Elapse dt]
  | UploadEnds filePath => [UploadSettled filePath]
  | SIGINT => [Signal_SIGINT]
  | SIGTERM => [Signal_SIGTERM]
  | StreamFails filePath => [StreamError filePath]
  end.

Definition seen (config : Config) (pevs : list ProcessEvent) : list LoopEvent :=
  concat (seen_by_debouncer config <$> pevs).

(** [DEBOUNCE_MS=2147483648]: one more than the host takes. *)
Definition config_long_debounce : Config :=
  {| watchDirectory := "/watch"; fileExtension := ".bar";
     apiBaseUrl := "https://api.example.com";
     clientId := "client"; clientSecret := "secret"; apiKey := "key";
     instanceId := "instance"; integrationServerId := "server";
     debounceMs := 2147483648 |}.

(** [FILE_EXTENSION=bar]: the extension is given without its dot. *)
Definition config_without_dot : Config :=
  {| watchDirectory := "/watch"; fileExtension := "bar";
     apiBaseUrl := "https://api.example.com";
     clientId := "client"; clientSecret := "secret"; apiKey := "key";
     instanceId := "instance"; integrationServerId := "server";
     debounceMs := 1000 |}.

(** * Proofs *)

(** ** Proof tools *)

Ltac unfold_program :=
  cbv [generateToken cache_valid uploadBarFile_pass invalidate
       fetch_token fetch_upload createReadStream statSync date_now
       console_log console_error get_cachedToken get_tokenExpiry
       set_cachedToken set_tokenExpiry emit await bind ret throw try_catch
       unfinished cachedToken tokenExpiry trace];
  simpl calls.

Ltac case_step :=
  match goal with
  | |- context [match ?x with _ => _ end] =>
      lazymatch x with
      | context [match _ with _ => _ end] => fail
      | _ => destruct x eqn:?
      end
  end.

Ltac tidy :=
  cbn [fst snd cachedToken tokenExpiry trace andb negb] in *; simpl calls in *.

(** Every path through a monadic definition whose run is the left-hand side
    of the equation the goal starts with: one goal per path, with the result
    and the final state substituted. *)
Ltac all_paths :=
  unfold_program; repeat case_step;
  let H := fresh in
  intros H; inversion H; subst; clear H; tidy.

Lemma cons_prefix {A} (e : A) (l new tr : list A) :
  l = new ++ tr -> e :: l = (e :: new) ++ tr.
Proof. intros ->. reflexivity. Qed.

(** [l = ?new ++ tr], where [l] is [tr] with events put in front. *)
Ltac solve_prefix :=
  repeat first [ apply cons_prefix | exact (eq_refl : _ = [] ++ _) ].

Ltac new_events :=
  eexists; split; [ solve_prefix | try reflexivity ].

Section TokenCache.

Variable config : Config.
Variable env : Env.

Lemma cache_fresh_cleared (w : World) :
  cachedToken w = JsNull -> cache_fresh env w = false.
Proof. unfold cache_fresh. intros ->. reflexivity. Qed.

(** What a call of [generateToken] does to the history. *)
Lemma generateToken_history (w : World) r w' :
  generateToken config env w = (r, w') ->
  r <> Unfinished /\
  calls is_FetchToken (trace w') =
    (if cache_fresh env w then 0 else 1) + calls is_FetchToken (trace w) /\
  calls is_FetchUpload (trace w') = calls is_FetchUpload (trace w) /\
  calls is_CreateReadStream (trace w') = calls is_CreateReadStream (trace w) /\
  calls is_StatSync (trace w') = calls is_StatSync (trace w) /\
  calls is_Cleared (trace w') = calls is_Cleared (trace w) /\
  exists new, trace w' = new ++ trace w /\ List.filter is_FetchUpload new = [].
Proof.
  unfold cache_fresh. destruct w as [tok expiry tr].
  cbn [cachedToken tokenExpiry trace].
  all_paths; try congruence;
    (repeat split; [discriminate | try reflexivity ..]); new_events.
Qed.

(** What a call of [generateToken] does to the cache. *)
Lemma generateToken_cache (w : World) r w' :
  generateToken config env w = (r, w') ->
  (forall v, r = Returns v -> cachedToken w' = v) /\
  (forall e, r = Throws e ->
     cachedToken w' = cachedToken w /\ tokenExpiry w' = tokenExpiry w) /\
  (cache_fresh env w = true ->
     r = Returns (cachedToken w) /\
     cachedToken w' = cachedToken w /\ tokenExpiry w' = tokenExpiry w) /\
  (cache_fresh env w = false -> forall v, r = Returns v ->
     exists t, tokenExpiry w' = Some (t + token_ttl)%N).
Proof.
  unfold cache_fresh. destruct w as [tok expiry tr].
  cbn [cachedToken tokenExpiry trace].
  all_paths; try congruence;
    (repeat split; try congruence; try (intros; eexists; reflexivity)).
Qed.

(** Inside the validity window the cache answers by itself. *)
Lemma cache_fresh_window (w : World) (e : N) :
  truthy (cachedToken w) = true ->
  tokenExpiry w = Some e ->
  (env_now env (calls is_DateNow (trace w)) < e)%N ->
  cache_fresh env w = true.
Proof.
  intros Htok Hexp Hlt. unfold cache_fresh. rewrite Htok, Hexp.
  apply N.ltb_lt in Hlt as Hltb. rewrite Hltb.
  destruct (N.eqb_spec e 0) as [-> | _]; [lia | reflexivity].
Qed.

(** C2. Token reuse: when a call of [generateToken] has returned a token and
    left it cached, a second call whose clock read is before the cached
    expiry returns the identical value and issues no external call; the two
    calls together issue exactly one token request when the first call had to
    acquire the token (and none when the first call was itself answered from
    the cache). *)
Theorem token_reuse (w w1 : World) (tok : JsValue) (e : N) :
  generateToken config env w = (Returns tok, w1) ->
  truthy (cachedToken w1) = true ->
  tokenExpiry w1 = Some e ->
  (env_now env (calls is_DateNow (trace w1)) < e)%N ->
  exists w2,
    generateToken config env w1 = (Returns tok, w2) /\
    calls is_FetchToken (trace w2) = calls is_FetchToken (trace w1) /\
    calls is_FetchToken (trace w2) =
      (if cache_fresh env w then 0 else 1) + calls is_FetchToken (trace w).
Proof.
  intros Hfirst Htok Hexp Hlt.
  pose proof (cache_fresh_window w1 e Htok Hexp Hlt) as Hfresh.
  destruct (generateToken_cache _ _ _ Hfirst) as (Hret & _).
  specialize (Hret tok eq_refl).
  destruct (generateToken_history _ _ _ Hfirst) as (_ & Hcalls1 & _).
  destruct (generateToken config env w1) as [r2 w2] eqn:Hsecond.
  destruct (generateToken_cache _ _ _ Hsecond) as (_ & _ & Hhit & _).
  destruct (Hhit Hfresh) as (-> & _ & _).
  destruct (generateToken_history _ _ _ Hsecond) as (_ & Hcalls2 & _).
  rewrite Hfresh in Hcalls2. cbn [Nat.add] in Hcalls2.
  exists w2. rewrite Hret. repeat split; congruence.
Qed.

(** C3. Invalidate-then-fetch: after the two cache variables are cleared,
    whatever they held, the next [generateToken] issues one new token
    request. *)
Theorem invalidate_then_fetch (w : World) :
  let w0 := snd (invalidate w) in
  cachedToken w0 = JsNull /\ tokenExpiry w0 = None /\
  cache_fresh env w0 = false /\
  calls is_FetchToken (trace (snd (generateToken config env w0))) =
    S (calls is_FetchToken (trace w)).
Proof.
  cbv zeta. set (w0 := snd (invalidate w)).
  assert (Hnull : cachedToken w0 = JsNull) by reflexivity.
  assert (Hcalls : calls is_FetchToken (trace w0) = calls is_FetchToken (trace w))
    by reflexivity.
  pose proof (cache_fresh_cleared w0 Hnull) as Hmiss.
  repeat split; try assumption; try reflexivity.
  destruct (generateToken config env w0) as [r w'] eqn:Hrun.
  destruct (generateToken_history _ _ _ Hrun) as (_ & Hft & _).
  cbn [snd]. rewrite Hft, Hmiss, Hcalls. reflexivity.
Qed.

(** C4. A refused token request: when the cache does not answer and the
    token endpoint reports a status outside 200-299 with a readable body,
    [generateToken] throws an error whose message carries the status and the
    body, and the two cache variables are as they were. *)
Theorem token_failure (w : World) (resp : Response) (body : string) :
  cache_fresh env w = false ->
  env_token env (calls is_FetchToken (trace w)) (token_request config) = Resolved resp ->
  ok resp = false ->
  text resp = Resolved body ->
  exists w',
    generateToken config env w =
      (Throws (new_Error ("Token generation failed: " +:+ pretty (status resp)
                          +:+ " " +:+ statusText resp +:+ " - " +:+ body)), w') /\
    cachedToken w' = cachedToken w /\ tokenExpiry w' = tokenExpiry w /\
    calls is_FetchToken (trace w') = S (calls is_FetchToken (trace w)).
Proof.
  intros Hmiss Hanswer Hok Hbody.
  destruct (generateToken config env w) as [r w'] eqn:Hrun.
  exists w'. revert Hrun Hmiss Hanswer.
  unfold cache_fresh. destruct w as [tok expiry tr].
  cbn [cachedToken tokenExpiry trace].
  all_paths; intros; tidy; try congruence;
    repeat match goal with
           | H1 : ?x = Resolved _, H2 : ?x = Resolved _ |- _ =>
               rewrite H1 in H2; injection H2 as H2; subst
           | H1 : ?x = Resolved _, H2 : ?x = Rejected _ |- _ =>
               rewrite H1 in H2; discriminate H2
           end;
    try congruence;
    try (rewrite Hok in *; cbn [negb] in *; congruence);
    repeat split; congruence.
Qed.

End TokenCache.

(** A run of both calls under the example environment. *)
Lemma token_reuse_witness :
  let env := example_env 1000 status_401_200 in
  let w1 := snd (generateToken example_config env initial_world) in
  exists w2,
    generateToken example_config env w1 = (Returns (JsString "tok-A"), w2) /\
    calls is_FetchToken (trace w2) = calls is_FetchToken (trace w1) /\
    calls is_FetchToken (trace w2) = 1.
Proof.
  cbv zeta.
  apply (token_reuse example_config (example_env 1000 status_401_200)
           initial_world _ (JsString "tok-A") 3000000%N);
    vm_compute; reflexivity.
Defined.

Lemma token_failure_witness :
  exists w',
    generateToken example_config env_token_refused initial_world =
      (Throws (new_Error "Token generation failed: 403 Forbidden - diagnostic"), w') /\
    cachedToken w' = JsNull /\ tokenExpiry w' = None /\
    calls is_FetchToken (trace w') = 1.
Proof.
  apply (token_failure example_config env_token_refused initial_world
           (answer 403 "Forbidden") "diagnostic"); reflexivity.
Defined.

(** ** The upload operation *)

Ltac unfold_pass :=
  cbv [uploadBarFile_pass invalidate
       fetch_upload createReadStream statSync
       console_log console_error get_cachedToken get_tokenExpiry
       set_cachedToken set_tokenExpiry emit await bind ret throw try_catch
       unfinished cachedToken tokenExpiry trace];
  simpl calls.

Ltac count_calls :=
  cbn [calls is_DateNow is_FetchToken is_FetchUpload is_CreateReadStream
       is_StatSync is_Cleared is_ConsoleError].

Ltac pass_paths :=
  unfold_pass; repeat case_step;
  let H := fresh in
  intros H; inversion H; subst; clear H; tidy.

Section Upload.

Variable config : Config.
Variable env : Env.

(** A pass never throws and never stays unfinished. *)
Lemma pass_settles (filePath : string) (w : World) r w' :
  uploadBarFile_pass config env filePath w = (r, w') ->
  exists again, r = Returns again.
Proof.
  destruct w as [tok expiry tr].
  pass_paths; try (eexists; reflexivity).
  all: match goal with
       | H : generateToken _ _ _ = (Unfinished, _) |- _ =>
           destruct (generateToken_history _ _ _ _ _ H) as (Hne & _); congruence
       end.
Qed.

(** What a pass does to the history and to the cache. *)
Lemma pass_history (filePath : string) (w : World) r w' :
  uploadBarFile_pass config env filePath w = (r, w') ->
  (r = Returns true ->
     cachedToken w' = JsNull /\ tokenExpiry w' = None /\
     calls is_Cleared (trace w') = S (calls is_Cleared (trace w)) /\
     calls is_FetchUpload (trace w') = S (calls is_FetchUpload (trace w)) /\
     exists req resp,
       env_upload env (calls is_FetchUpload (trace w)) req = Resolved resp /\
       status resp = 401%N) /\
  (r = Returns false ->
     calls is_Cleared (trace w') = calls is_Cleared (trace w) /\
     calls is_FetchUpload (trace w') <= S (calls is_FetchUpload (trace w))).
Proof.
  destruct w as [tok expiry tr].
  pass_paths; (split; [intros [=] | intros [=]]);
  match goal with
  | H : generateToken _ _ _ = _ |- _ =>
      destruct (generateToken_history _ _ _ _ _ H)
        as (_ & _ & Hfu & _ & _ & Hcl & _); tidy
  end; rewrite ?Hfu, ?Hcl in *.
  all: try (split; [reflexivity | lia]).
  all: repeat split; try reflexivity.
  all: do 2 eexists; split; [eassumption |].
  all: match goal with H : (_ =? 401)%N && _ = true |- _ =>
         apply andb_prop in H as [H _]; apply N.eqb_eq in H; exact H end.
Qed.

(** The start of a pass whose token step returns [token] and whose file
    system calls succeed: the goal is left at the upload call, with the facts
    about the state [generateToken] left behind. *)
Ltac run_prefix w Htoken Hstream Hstat :=
  lazymatch goal with
  | |- _ =>
      destruct w as [tok expiry tr];
      unfold pass_token in Htoken;
      cbv [console_log emit bind cachedToken tokenExpiry trace] in Htoken;
      cbn [trace] in Hstream, Hstat;
      unfold_pass;
      lazymatch type of Htoken with
      | fst ?run = _ =>
          let Hrun := fresh "Hrun" in
          destruct run as [r1 [tok1 expiry1 tr1]] eqn:Hrun;
          cbn [fst] in Htoken; subst r1;
          destruct (generateToken_history _ _ _ _ _ Hrun)
            as (_ & _ & Hfu & Hcrs & Hss & Hcl & (new1 & Hnew1 & Hnone));
          destruct (generateToken_cache _ _ _ _ _ Hrun) as (Hret & _);
          specialize (Hret _ eq_refl);
          tidy; subst tok1;
          rewrite Hcrs, Hstream; cbv beta iota zeta; count_calls;
          rewrite Hss, Hstat; cbv beta iota zeta; count_calls;
          rewrite Hfu
      end
  end.

Lemma status_401_not_ok (resp : Response) : status resp = 401%N -> ok resp = false.
Proof. unfold ok. intros ->. reflexivity. Qed.

(** A pass whose upload call is answered 401 while a token is cached clears
    the cache and asks for another pass. *)
Lemma pass_rejected_401 (filePath : string) (w : World) token size resp body :
  pass_token config env filePath w = Returns token ->
  truthy token = true ->
  env_createReadStream env (calls is_CreateReadStream (trace w)) filePath = Resolved tt ->
  env_statSync env (calls is_StatSync (trace w)) filePath = Resolved size ->
  env_upload env (calls is_FetchUpload (trace w))
    (upload_request config (basename filePath) filePath token size) = Resolved resp ->
  status resp = 401%N ->
  text resp = Resolved body ->
  exists w',
    uploadBarFile_pass config env filePath w = (Returns true, w') /\
    cachedToken w' = JsNull /\ tokenExpiry w' = None /\
    calls is_FetchUpload (trace w') = S (calls is_FetchUpload (trace w)) /\
    calls is_Cleared (trace w') = S (calls is_Cleared (trace w)) /\
    calls is_CreateReadStream (trace w') = S (calls is_CreateReadStream (trace w)) /\
    calls is_StatSync (trace w') = S (calls is_StatSync (trace w)).
Proof.
  intros Htoken Htruthy Hstream Hstat Hanswer H401 Hbody.
  pose proof (status_401_not_ok _ H401) as Hok.
  run_prefix w Htoken Hstream Hstat.
  cbn [trace] in Hanswer. rewrite Hanswer; cbv beta iota zeta.
  rewrite Hok, Hbody; cbv beta iota zeta. rewrite H401, Htruthy.
  cbn [N.eqb Pos.eqb andb].
  eexists. split; [reflexivity |]. tidy. repeat split; congruence.
Qed.

(** A pass whose upload call is answered in the range 200-299 with a body
    that parses reports the success and asks for nothing more. *)
Lemma pass_accepted (filePath : string) (w : World) token size resp result :
  pass_token config env filePath w = Returns token ->
  env_createReadStream env (calls is_CreateReadStream (trace w)) filePath = Resolved tt ->
  env_statSync env (calls is_StatSync (trace w)) filePath = Resolved size ->
  env_upload env (calls is_FetchUpload (trace w))
    (upload_request config (basename filePath) filePath token size) = Resolved resp ->
  ok resp = true ->
  json resp = Resolved result ->
  exists w' rest,
    uploadBarFile_pass config env filePath w = (Returns false, w') /\
    trace w' =
      ConsoleLog [Text "   Response:"; JsonText result]
      :: ConsoleLog [Text ("✅ Successfully uploaded " +:+ basename filePath)]
      :: rest /\
    calls is_FetchUpload (trace w') = S (calls is_FetchUpload (trace w)) /\
    calls is_Cleared (trace w') = calls is_Cleared (trace w).
Proof.
  intros Htoken Hstream Hstat Hanswer Hok Hresult.
  run_prefix w Htoken Hstream Hstat.
  cbn [trace] in Hanswer. rewrite Hanswer; cbv beta iota zeta.
  rewrite Hok, Hresult; cbv beta iota zeta.
  do 2 eexists. split; [reflexivity |]. tidy. count_calls.
  repeat split; congruence.
Qed.

Lemma app_cons_prefix {A} (new : list A) (e : A) (tr : list A) :
  new ++ e :: tr = (new ++ [e]) ++ tr.
Proof. rewrite <- app_assoc. reflexivity. Qed.

(** The upload call of a pass whose token step and file system calls
    succeed: the pass issues that one call and no other, and it asks for
    another pass only when the call is answered 401. *)
Lemma pass_upload_call (filePath : string) (w : World) token size :
  pass_token config env filePath w = Returns token ->
  env_createReadStream env (calls is_CreateReadStream (trace w)) filePath = Resolved tt ->
  env_statSync env (calls is_StatSync (trace w)) filePath = Resolved size ->
  let req := upload_request config (basename filePath) filePath token size in
  exists again w' new,
    uploadBarFile_pass config env filePath w = (Returns again, w') /\
    trace w' = new ++ trace w /\
    List.filter is_FetchUpload new = [FetchUpload req] /\
    (not_401 (env_upload env (calls is_FetchUpload (trace w)) req) -> again = false).
Proof.
  intros Htoken Hstream Hstat req.
  destruct (uploadBarFile_pass config env filePath w) as [r w'] eqn:Hpass.
  destruct (pass_settles _ _ _ _ Hpass) as [again ->].
  exists again, w'. revert Hpass. subst req.
  run_prefix w Htoken Hstream Hstat.
  repeat case_step;
    (let H := fresh in intros H; inversion H; subst; clear H); tidy;
    (eexists; split; [reflexivity |]);
    (split; [solve_prefix; apply app_cons_prefix |]);
    (split;
     [ cbn [List.filter is_FetchUpload app]; rewrite List.filter_app, Hnone; reflexivity
     | unfold not_401; intros Hnot; try reflexivity ]).
  all: match goal with
       | H : (status _ =? 401)%N && _ = true |- _ =>
           apply andb_prop in H as [H _]; apply N.eqb_eq in H; congruence
       end.
Qed.

(** [uploadBarFile] never throws. *)
Lemma uploadBarFile_never_throws (passes : nat) (filePath : string) (w : World) :
  fst (uploadBarFile config env passes filePath w) = Returns tt \/
  fst (uploadBarFile config env passes filePath w) = Unfinished.
Proof.
  revert w. induction passes as [|n IH]; intros w; [right; reflexivity |].
  cbn [uploadBarFile]. unfold bind.
  destruct (uploadBarFile_pass config env filePath w) as [r w1] eqn:Hpass.
  destruct (pass_settles _ _ _ _ Hpass) as [[|] ->]; [apply IH | left; reflexivity].
Qed.

(** [uploadBarFile] returns as soon as one of its upload calls is answered by
    something other than a 401: [k] 401 answers are followed by at most
    [k + 1] passes. *)
Lemma uploadBarFile_returns (filePath : string) (k : nat) :
  forall (w : World) (passes : nat),
    (forall req, not_401 (env_upload env (k + calls is_FetchUpload (trace w)) req)) ->
    k < passes ->
    fst (uploadBarFile config env passes filePath w) = Returns tt.
Proof.
  induction k as [|k IH]; intros w passes Hanswer Hlt;
    (destruct passes as [|n]; [lia |]);
    cbn [uploadBarFile]; unfold bind;
    destruct (uploadBarFile_pass config env filePath w) as [r w1] eqn:Hpass;
    destruct (pass_settles _ _ _ _ Hpass) as [[|] ->]; try reflexivity;
    destruct (pass_history _ _ _ _ Hpass) as [Hagain _];
    destruct (Hagain eq_refl) as (_ & _ & _ & Hfu & req & resp & Hreq & H401).
  - specialize (Hanswer req). cbn [Nat.add] in Hanswer.
    rewrite Hreq in Hanswer. cbn in Hanswer. congruence.
  - apply IH; [| lia]. intros req'. rewrite Hfu.
    replace (k + S (calls is_FetchUpload (trace w)))
      with (S k + calls is_FetchUpload (trace w)) by lia.
    apply Hanswer.
Qed.


(** Under a token endpoint that grants, [generateToken] returns a truthy
    token from every state. *)
Lemma generateToken_granted (w : World) :
  token_endpoint_grants env ->
  exists token, fst (generateToken config env w) = Returns token /\
                truthy token = true.
Proof.
  intros Hgrants.
  destruct (generateToken config env w) as [r w'] eqn:Hrun. cbn [fst].
  revert Hrun. destruct w as [tok expiry tr].
  all_paths;
    try (eexists; split; [reflexivity | assumption]);
    match goal with
    | H : env_token env ?k ?req = _ |- _ =>
        destruct (Hgrants k req) as (resp & v & granted & Ha & Hok & Hj & Hp & Ht);
        assert (Hnok : negb (ok resp) = false) by (rewrite Hok; reflexivity)
    end;
    try congruence;
    (eexists; split; [reflexivity | congruence]).
Qed.

Lemma pass_token_granted (filePath : string) (w : World) :
  token_endpoint_grants env ->
  exists token, pass_token config env filePath w = Returns token /\
                truthy token = true.
Proof.
  intros Hgrants. unfold pass_token. cbv [console_log emit bind].
  apply generateToken_granted, Hgrants.
Qed.

(** One more pass: a 401 answer under a granting token endpoint. *)
Lemma pass_retries (filePath : string) (w : World) :
  token_endpoint_grants env ->
  files_readable env ->
  answers_401 env (calls is_FetchUpload (trace w)) ->
  exists w',
    uploadBarFile_pass config env filePath w = (Returns true, w') /\
    calls is_FetchUpload (trace w') = S (calls is_FetchUpload (trace w)) /\
    calls is_Cleared (trace w') = S (calls is_Cleared (trace w)).
Proof.
  intros Hgrants Hfiles H401.
  destruct (pass_token_granted filePath w Hgrants) as (token & Htoken & Htruthy).
  destruct (Hfiles (calls is_CreateReadStream (trace w)) filePath) as [Hstream _].
  destruct (Hfiles (calls is_StatSync (trace w)) filePath) as [_ [size Hstat]].
  destruct (H401 (upload_request config (basename filePath) filePath token size))
    as (resp & body & Hanswer & Hstatus & Hbody).
  destruct (pass_rejected_401 filePath w token size resp body
              Htoken Htruthy Hstream Hstat Hanswer Hstatus Hbody)
    as (w' & Hpass & _ & _ & Hfu & Hcl & _).
  exists w'. auto.
Qed.

(** The retry has no bound of its own: as long as the upload calls are
    answered 401, every pass is followed by another one, each with its own
    upload call and its own clearing of the cache. *)
Lemma retries_follow_401 (filePath : string) (passes : nat) :
  token_endpoint_grants env ->
  files_readable env ->
  forall w : World,
    (forall k, k < passes -> answers_401 env (k + calls is_FetchUpload (trace w))) ->
    exists w',
      uploadBarFile config env passes filePath w = (Unfinished, w') /\
      calls is_FetchUpload (trace w') = passes + calls is_FetchUpload (trace w) /\
      calls is_Cleared (trace w') = passes + calls is_Cleared (trace w).
Proof.
  intros Hgrants Hfiles.
  induction passes as [|n IH]; intros w H401.
  - exists w. repeat split.
  - destruct (pass_retries filePath w Hgrants Hfiles (H401 0 ltac:(lia)))
      as (w1 & Hpass & Hfu & Hcl).
    destruct (IH w1) as (w' & Hrest & Hfu' & Hcl').
    { intros k Hk. rewrite Hfu.
      replace (k + S (calls is_FetchUpload (trace w)))
        with (S k + calls is_FetchUpload (trace w)) by lia.
      apply H401. lia. }
    exists w'. cbn [uploadBarFile]. unfold bind. rewrite Hpass.
    repeat split; [exact Hrest | lia | lia].
Qed.

(** A 401 answer followed by an accepted upload: two upload calls, one
    clearing of the cache, and the success is reported. *)
Lemma single_retry_succeeds (filePath : string) (w : World) (result : JsValue)
      (passes : nat) :
  token_endpoint_grants env ->
  files_readable env ->
  answers_401 env (calls is_FetchUpload (trace w)) ->
  answers_ok env (S (calls is_FetchUpload (trace w))) result ->
  exists w' rest,
    uploadBarFile config env (S (S passes)) filePath w = (Returns tt, w') /\
    calls is_FetchUpload (trace w') = 2 + calls is_FetchUpload (trace w) /\
    calls is_Cleared (trace w') = 1 + calls is_Cleared (trace w) /\
    trace w' =
      ConsoleLog [Text "   Response:"; JsonText result]
      :: ConsoleLog [Text ("✅ Successfully uploaded " +:+ basename filePath)]
      :: rest.
Proof.
  intros Hgrants Hfiles H401 Hok.
  destruct (pass_retries filePath w Hgrants Hfiles H401) as (w1 & Hpass & Hfu & Hcl).
  destruct (pass_token_granted filePath w1 Hgrants) as (token & Htoken & _).
  destruct (Hfiles (calls is_CreateReadStream (trace w1)) filePath) as [Hstream _].
  destruct (Hfiles (calls is_StatSync (trace w1)) filePath) as [_ [size Hstat]].
  rewrite <- Hfu in Hok.
  destruct (Hok (upload_request config (basename filePath) filePath token size))
    as (resp & Hanswer & Hresp & Hresult).
  destruct (pass_accepted filePath w1 token size resp result
              Htoken Hstream Hstat Hanswer Hresp Hresult)
    as (w' & rest & Hpass' & Htrace & Hfu' & Hcl').
  exists w', rest. cbn [uploadBarFile]. unfold bind. rewrite Hpass, Hpass'.
  repeat split; [lia | lia | exact Htrace].
Qed.

End Upload.

(** ** The example environments *)

Lemma example_env_grants (tick : N) (statuses : nat -> N) :
  token_endpoint_grants (example_env tick statuses).
Proof.
  intros k req. exists (token_granted "tok-A"). do 2 eexists.
  repeat split; reflexivity.
Qed.

Lemma example_env_files (tick : N) (statuses : nat -> N) :
  files_readable (example_env tick statuses).
Proof. intros k p. split; [reflexivity | eexists; reflexivity]. Qed.

Lemma example_env_always_401 (tick : N) (k : nat) :
  answers_401 (example_env tick status_always_401) k.
Proof. intros req. do 2 eexists. repeat split; reflexivity. Qed.

(** Upload answers 401 then 200 under the example environment: two upload
    calls, two token requests, one clearing of the cache, success. *)
Lemma retry_401_then_200 (extra : nat) :
  let run := uploadBarFile example_config (example_env 1000 status_401_200)
               (2 + extra) "/watch/order-flow.bar" initial_world in
  fst run = Returns tt /\
  calls is_FetchUpload (trace (snd run)) = 2 /\
  calls is_Cleared (trace (snd run)) = 1 /\
  calls is_FetchToken (trace (snd run)) = 2.
Proof. vm_compute. repeat split. Qed.

(** C1 (second half). Upload answers 401, 401, then 200: the second 401 is
    not final.  After two passes the operation is still going, it clears the
    cache a second time and makes a third upload call, which here succeeds. *)
Theorem second_401_is_retried (extra : nat) :
  let env := example_env 1000 status_401_401_200 in
  let two := uploadBarFile example_config env 2 "/watch/order-flow.bar" initial_world in
  let run := uploadBarFile example_config env (3 + extra)
               "/watch/order-flow.bar" initial_world in
  fst two = Unfinished /\
  calls is_Cleared (trace (snd two)) = 2 /\
  fst run = Returns tt /\
  calls is_FetchUpload (trace (snd run)) = 3 /\
  calls is_Cleared (trace (snd run)) = 2.
Proof. vm_compute. repeat split. Qed.

(** C9. Under upload answers that are always 401 the operation never
    returns: however many passes it is allowed, it is still going, having
    made one upload call per pass. *)
Theorem upload_never_settles_under_401 (passes : nat) :
  let run := uploadBarFile example_config (example_env 1000 status_always_401)
               passes "/watch/order-flow.bar" initial_world in
  fst run = Unfinished /\
  calls is_FetchUpload (trace (snd run)) = passes.
Proof.
  cbv zeta.
  destruct (retries_follow_401 example_config (example_env 1000 status_always_401)
              "/watch/order-flow.bar" passes
              (example_env_grants _ _) (example_env_files _ _) initial_world)
    as (w' & Hrun & Hfu & _).
  - intros k _. apply example_env_always_401.
  - rewrite Hrun. cbn [fst snd]. split; [reflexivity |].
    rewrite Hfu. cbn. lia.
Qed.

(** ** The shape of the upload request *)

(** C8. In a pass of the upload operation whose token step returns [token]
    and whose file is opened and measured at [size] bytes, exactly one upload
    call is issued: a PUT to [{apiBaseUrl}/api/v1/bar-files/{fileName}.bar],
    [fileName] being the basename of the path, with the four headers and a
    multipart body that carries the file name and the size as known length.
    When that call is answered by anything but a 401, it is the only upload
    call of the whole operation. *)
Theorem upload_request_shape (config : Config) (env : Env)
        (filePath fileName : string) (w : World) (token : JsValue) (size : N) :
  fileName = basename filePath ->
  pass_token config env filePath w = Returns token ->
  env_createReadStream env (calls is_CreateReadStream (trace w)) filePath = Resolved tt ->
  env_statSync env (calls is_StatSync (trace w)) filePath = Resolved size ->
  let req :=
    {| req_url := apiBaseUrl config +:+ "/api/v1/bar-files/" +:+ fileName +:+ ".bar";
       req_method := "PUT";
       req_headers :=
         [ ("X-IBM-Instance-Id", instanceId config);
           ("X-IBM-Client-Id", clientId config);
           ("authorization", "Bearer " +:+ to_string token);
           ("Content-Type", "application/octet-stream") ];
       req_body :=
         BodyForm [ {| part_field := "file"; part_stream := filePath;
                       part_filename := fileName;
                       part_contentType := "application/octet-stream";
                       part_knownLength := size |} ] |} in
  (exists again w' new,
     uploadBarFile_pass config env filePath w = (Returns again, w') /\
     trace w' = new ++ trace w /\
     List.filter is_FetchUpload new = [FetchUpload req]) /\
  (not_401 (env_upload env (calls is_FetchUpload (trace w)) req) ->
   forall passes, exists w' new,
     uploadBarFile config env (S passes) filePath w = (Returns tt, w') /\
     trace w' = new ++ trace w /\
     List.filter is_FetchUpload new = [FetchUpload req]).
Proof.
  intros -> Htoken Hstream Hstat req.
  destruct (pass_upload_call config env filePath w token size Htoken Hstream Hstat)
    as (again & w' & new & Hpass & Htrace & Hone & Hnot).
  fold req in Hone, Hnot. split.
  - exists again, w', new. auto.
  - intros H passes. rewrite (Hnot H) in Hpass.
    exists w', new. cbn [uploadBarFile]. unfold bind. rewrite Hpass. auto.
Qed.

(** The example scenario: [order-flow.bar] is uploaded once, to
    [/api/v1/bar-files/order-flow.bar.bar], with the token "tok-A". *)
Lemma upload_request_shape_witness :
  let env := example_env 1000 (fun _ => 200%N) in
  let req :=
    {| req_url := "https://api.example.com/api/v1/bar-files/order-flow.bar.bar";
       req_method := "PUT";
       req_headers :=
         [ ("X-IBM-Instance-Id", "instance");
           ("X-IBM-Client-Id", "client");
           ("authorization", "Bearer tok-A");
           ("Content-Type", "application/octet-stream") ];
       req_body :=
         BodyForm [ {| part_field := "file"; part_stream := "/watch/order-flow.bar";
                       part_filename := "order-flow.bar";
                       part_contentType := "application/octet-stream";
                       part_knownLength := 1024 |} ] |} in
  exists w' new,
    uploadBarFile example_config env 1 "/watch/order-flow.bar" initial_world
      = (Returns tt, w') /\
    trace w' = new ++ trace initial_world /\
    List.filter is_FetchUpload new = [FetchUpload req].
Proof.
  cbv zeta.
  refine (proj2 (upload_request_shape example_config (example_env 1000 (fun _ => 200%N))
                   "/watch/order-flow.bar" "order-flow.bar" initial_world
                   (JsString "tok-A") 1024%N _ _ _ _) _ 0);
    try reflexivity.
  cbn. discriminate.
Defined.

(** ** The token state over the reachable states *)

Section TokenState.

Variable config : Config.
Variable env : Env.

Lemma cache_consistent_fields (w w' : World) :
  cachedToken w' = cachedToken w -> tokenExpiry w' = tokenExpiry w ->
  cache_consistent w -> cache_consistent w'.
Proof. unfold cache_consistent. intros -> ->. auto. Qed.

Lemma cache_consistent_cleared (w : World) :
  cachedToken w = JsNull -> cache_consistent w.
Proof. unfold cache_consistent. congruence. Qed.

Lemma generateToken_consistent (w : World) r w' :
  cache_consistent w ->
  generateToken config env w = (r, w') ->
  cache_consistent w'.
Proof.
  intros Hw Hrun.
  destruct (generateToken_history _ _ _ _ _ Hrun) as (Hsettles & _).
  destruct (generateToken_cache _ _ _ _ _ Hrun) as (_ & Hthrows & Hhit & Hmiss).
  destruct r as [v | e |]; [| | congruence].
  - destruct (cache_fresh env w) eqn:Hfresh.
    + destruct (Hhit eq_refl) as (_ & Htok & Hexp).
      exact (cache_consistent_fields _ _ Htok Hexp Hw).
    + destruct (Hmiss eq_refl v eq_refl) as [t Hexp].
      intros _. exists (t + token_ttl)%N. split; [exact Hexp | lia].
  - destruct (Hthrows e eq_refl) as [Htok Hexp].
    exact (cache_consistent_fields _ _ Htok Hexp Hw).
Qed.

Lemma pass_consistent (filePath : string) (w : World) r w' :
  cache_consistent w ->
  uploadBarFile_pass config env filePath w = (r, w') ->
  cache_consistent w'.
Proof.
  intros Hw. destruct w as [tok expiry tr].
  pass_paths;
    try (apply cache_consistent_cleared; reflexivity);
    match goal with
    | H : generateToken _ _ _ = _ |- _ =>
        refine (generateToken_consistent _ _ _ _ H); exact Hw
    end.
Qed.

Lemma uploadBarFile_consistent (passes : nat) (filePath : string) :
  forall (w : World) r w',
    cache_consistent w ->
    uploadBarFile config env passes filePath w = (r, w') ->
    cache_consistent w'.
Proof.
  induction passes as [|n IH]; intros w r w' Hw.
  - intros [= _ <-]. exact Hw.
  - cbn [uploadBarFile]. unfold bind.
    destruct (uploadBarFile_pass config env filePath w) as [r1 w1] eqn:Hpass.
    pose proof (pass_consistent _ _ _ _ Hw Hpass) as Hw1.
    destruct (pass_settles _ _ _ _ _ _ Hpass) as [[|] ->].
    + apply IH. exact Hw1.
    + intros [= _ <-]. exact Hw1.
Qed.

Lemma reachable_consistent (w : World) :
  reachable config env w -> cache_consistent w.
Proof.
  induction 1 as [| w r w' _ IH Hrun | w p r w' _ IH Hrun | w n p r w' _ IH Hrun].
  - apply cache_consistent_cleared. reflexivity.
  - exact (generateToken_consistent _ _ _ IH Hrun).
  - exact (pass_consistent _ _ _ _ IH Hrun).
  - exact (uploadBarFile_consistent _ _ _ _ _ IH Hrun).
Qed.

Lemma cache_fresh_iff (w : World) :
  cache_fresh env w = true <->
  truthy (cachedToken w) = true /\
  exists e, tokenExpiry w = Some e /\
            (env_now env (calls is_DateNow (trace w)) < e)%N.
Proof.
  split.
  - unfold cache_fresh. intros H. apply andb_prop in H as [Htok H].
    destruct (tokenExpiry w) as [e|]; [| discriminate].
    apply andb_prop in H as [_ Hlt]. apply N.ltb_lt in Hlt. eauto.
  - intros (Htok & e & Hexp & Hlt). exact (cache_fresh_window env w e Htok Hexp Hlt).
Qed.

(** C7, as the code has it. In every reachable state a stored token value
    comes with a stored expiry (set by an acquisition, so at least one
    validity window after the epoch); the expiry may already be in the past.
    [generateToken] answers from the cache, returning the stored value
    without a token request and leaving both variables alone, exactly when
    the stored value is truthy and the clock it reads is before the stored
    expiry. *)
Theorem token_state_consistent (w : World) :
  reachable config env w ->
  (cachedToken w <> JsNull ->
   exists e, tokenExpiry w = Some e /\ (token_ttl <= e)%N) /\
  (tokenExpiry w = None -> cachedToken w = JsNull) /\
  let after := generateToken config env w in
  ((truthy (cachedToken w) = true /\
    exists e, tokenExpiry w = Some e /\
              (env_now env (calls is_DateNow (trace w)) < e)%N)
   <->
   calls is_FetchToken (trace (snd after)) = calls is_FetchToken (trace w)) /\
  (calls is_FetchToken (trace (snd after)) = calls is_FetchToken (trace w) ->
   fst after = Returns (cachedToken w) /\
   cachedToken (snd after) = cachedToken w /\
   tokenExpiry (snd after) = tokenExpiry w).
Proof.
  intros Hreach. pose proof (reachable_consistent w Hreach) as Hw.
  split; [exact Hw |]. split.
  { intros Hnone. destruct (cachedToken w) eqn:Htok; try reflexivity;
      (destruct Hw as (e & He & _); [rewrite Htok; discriminate | congruence]). }
  cbv zeta.
  destruct (generateToken config env w) as [r w'] eqn:Hrun. cbn [fst snd].
  destruct (generateToken_history _ _ _ _ _ Hrun) as (_ & Hcalls & _).
  destruct (generateToken_cache _ _ _ _ _ Hrun) as (_ & _ & Hhit & _).
  rewrite <- cache_fresh_iff. rewrite Hcalls.
  destruct (cache_fresh env w); split.
  - split; reflexivity.
  - intros _. apply Hhit. reflexivity.
  - split; [discriminate | cbn; lia].
  - cbn. lia.
Qed.

End TokenState.

(** C7, as it is worded, fails on the state after one acquisition once the
    clock has reached the stored expiry: the value is still stored. *)
Lemma token_state_invariant_fails :
  reachable example_config stale_env stale_world /\
  env_now stale_env (calls is_DateNow (trace stale_world)) = 3000000%N /\
  ~ token_state_invariant stale_world 3000000.
Proof.
  split; [| split].
  - eapply reach_generateToken; [apply reach_initial |].
    unfold stale_world. apply surjective_pairing.
  - reflexivity.
  - unfold token_state_invariant. intros [Hpresent _].
    destruct Hpresent as (e & He & Hlt).
    + vm_compute. discriminate.
    + vm_compute in He. injection He as <-. vm_compute in Hlt. discriminate.
Qed.

Lemma token_state_consistent_witness :
  exists e, tokenExpiry stale_world = Some e /\ (token_ttl <= e)%N.
Proof.
  refine (proj1 (token_state_consistent example_config stale_env stale_world _) _).
  - eapply reach_generateToken; [apply reach_initial |].
    unfold stale_world. apply surjective_pairing.
  - vm_compute. discriminate.
Defined.

(** ** The debouncer *)

Lemma arm_perm (t : Timer) (ts : list Timer) : arm t ts ≡ₚ t :: ts.
Proof.
  induction ts as [|u ts IH]; cbn [arm]; [reflexivity |].
  destruct (timer_due t <? timer_due u)%N; [reflexivity |].
  rewrite IH. apply Permutation_swap.
Qed.

Lemma arm_sorted (t : Timer) (ts : list Timer) :
  StronglySorted due_le ts -> StronglySorted due_le (arm t ts).
Proof.
  induction ts as [|u ts IH]; cbn [arm]; intros Hs.
  - repeat constructor.
  - apply StronglySorted_cons in Hs as [Hu Hs].
    destruct (N.ltb_spec (timer_due t) (timer_due u)) as [Hlt | Hge].
    + apply StronglySorted_cons. split; [| apply StronglySorted_cons; auto].
      constructor; [unfold due_le; lia |].
      eapply Forall_impl; [exact Hu |]. unfold due_le. intros; lia.
    + apply StronglySorted_cons. split; [| auto].
      rewrite arm_perm. constructor; [exact Hge | exact Hu].
Qed.

Lemma filter_sorted (P : Timer -> Prop) `{!forall t, Decision (P t)} (ts : list Timer) :
  StronglySorted due_le ts -> StronglySorted due_le (filter P ts).
Proof.
  induction ts as [|u ts IH]; [intros; constructor |].
  intros [Hu Hs]%StronglySorted_cons. rewrite filter_cons.
  destruct (decide (P u)); [| auto].
  apply StronglySorted_cons. split; [| auto].
  apply Forall_forall. intros x [_ Hx]%list_elem_of_filter.
  rewrite Forall_forall in Hu. auto.
Qed.

Lemma filter_arm_only (P : Timer -> Prop) `{!forall t, Decision (P t)}
      (t : Timer) (ts : list Timer) :
  P t -> filter P ts = [] -> filter P (arm t ts) = [t].
Proof.
  intros Ht. induction ts as [|u ts IH]; cbn [arm]; intros Hnone.
  - rewrite filter_cons_True by done. reflexivity.
  - rewrite filter_cons in Hnone. destruct (decide (P u)) as [|Hu]; [discriminate |].
    destruct (timer_due t <? timer_due u)%N.
    + rewrite filter_cons_True by done. rewrite filter_cons_False by done.
      rewrite Hnone. reflexivity.
    + rewrite filter_cons_False by done. auto.
Qed.

Lemma filter_arm_other (P : Timer -> Prop) `{!forall t, Decision (P t)}
      (t : Timer) (ts : list Timer) :
  ~ P t -> filter P (arm t ts) = filter P ts.
Proof.
  intros Ht. induction ts as [|u ts IH]; cbn [arm].
  - rewrite filter_cons_False by done. reflexivity.
  - destruct (timer_due t <? timer_due u)%N.
    + rewrite filter_cons_False by done. reflexivity.
    + rewrite !filter_cons. destruct (decide (P u)); congruence.
Qed.

Lemma filter_all (P : Timer -> Prop) `{!forall t, Decision (P t)} (ts : list Timer) :
  Forall P ts -> filter P ts = ts.
Proof.
  induction 1 as [|u ts Hu _ IH]; [reflexivity |].
  rewrite filter_cons_True by done. congruence.
Qed.

Lemma filter_none (P : Timer -> Prop) `{!forall t, Decision (P t)} (ts : list Timer) :
  Forall (fun t => ~ P t) ts -> filter P ts = [].
Proof.
  induction 1 as [|u ts Hu _ IH]; [reflexivity |].
  rewrite filter_cons_False by done. exact IH.
Qed.

(** The host takes a delay between 1 and [TIMEOUT_MAX] as it is, and never
    arms a timer with less than a millisecond. *)
Lemma timer_delay_valid (delay : N) : valid_delay delay -> timer_delay delay = delay.
Proof.
  unfold valid_delay, timer_delay. intros [Hlow Hhigh].
  apply N.leb_le in Hlow, Hhigh. rewrite Hlow, Hhigh. reflexivity.
Qed.

Lemma timer_delay_pos (delay : N) : (1 <= timer_delay delay)%N.
Proof.
  unfold timer_delay. destruct (N.leb_spec 1 delay); cbn [andb]; [| lia].
  destruct (delay <=? TIMEOUT_MAX)%N; lia.
Qed.

Lemma timer_delay_clamped (delay : N) :
  ~ valid_delay delay -> timer_delay delay = 1%N.
Proof.
  unfold valid_delay, timer_delay. intros Hout.
  destruct (N.leb_spec 1 delay); cbn [andb]; [| reflexivity].
  destruct (N.leb_spec delay TIMEOUT_MAX); [| reflexivity].
  exfalso. apply Hout. lia.
Qed.

Section Debouncer.

Variable config : Config.

Lemma handleFileChange_unfold (p : string) (st : Loop) :
  handleFileChange config p st =
    {| clock := clock st;
       pending := arm {| timer_id := next_timer st;
                         timer_due := (clock st + timer_delay (debounceMs config))%N;
                         timer_path := p |} (kept_timers p st);
       next_timer := S (next_timer st);
       debounceTimers := <[p := next_timer st]> (debounceTimers st);
       started := started st; running := running st;
       watcher_closed := watcher_closed st;
       exit_status := exit_status st |}.
Proof.
  unfold handleFileChange, kept_timers.
  destruct (debounceTimers st !! p); reflexivity.
Qed.

Lemma kept_timers_pending (p : string) (st : Loop) (t : Timer) :
  t ∈ kept_timers p st -> t ∈ pending st.
Proof.
  unfold kept_timers. destruct (debounceTimers st !! p); [| auto].
  intros [_ Ht]%list_elem_of_filter. exact Ht.
Qed.

(** The old timer of [p] is not among them. *)
Lemma kept_timers_other (p : string) (st : Loop) (t : Timer) :
  loop_wf st -> t ∈ kept_timers p st -> timer_path t ≠ p.
Proof.
  intros Hwf Ht Hp. unfold kept_timers in Ht.
  destruct (debounceTimers st !! p) as [old|] eqn:Hold.
  - apply list_elem_of_filter in Ht as [Hne Ht].
    apply (wf_index st Hwf) in Ht. rewrite Hp, Hold in Ht. congruence.
  - apply (wf_index st Hwf) in Ht. rewrite Hp, Hold in Ht. discriminate.
Qed.

Lemma same_id_same_timer (ts : list Timer) (t u : Timer) :
  NoDup (timer_id <$> ts) -> t ∈ ts -> u ∈ ts -> timer_id t = timer_id u -> t = u.
Proof.
  induction ts as [|x l IH]; [intros _ Ht; inv Ht |].
  cbn. intros [Hx Hl]%NoDup_cons Ht Hu Hid.
  apply elem_of_cons in Ht as [-> | Ht]; apply elem_of_cons in Hu as [-> | Hu];
    try reflexivity; try (apply IH; assumption).
  - exfalso. apply Hx. rewrite Hid. apply list_elem_of_fmap. eauto.
  - exfalso. apply Hx. rewrite <- Hid. apply list_elem_of_fmap. eauto.
Qed.

(** Every timer of another path is. *)
Lemma kept_timers_all (p : string) (st : Loop) (t : Timer) :
  loop_wf st -> t ∈ pending st -> timer_path t ≠ p -> t ∈ kept_timers p st.
Proof.
  intros Hwf Ht Hp. unfold kept_timers.
  destruct (debounceTimers st !! p) as [old|] eqn:Hold; [| exact Ht].
  apply list_elem_of_filter. split; [| exact Ht]. intros Hid.
  destruct (wf_entries st Hwf p old Hold) as (u & Hu & Huid & Hup).
  assert (t = u); [| congruence].
  apply (same_id_same_timer (pending st)); try assumption; [apply Hwf | congruence].
Qed.

(** [handleFileChange] keeps the shape of the state. *)
Lemma handleFileChange_wf (p : string) (st : Loop) :
  loop_wf st -> loop_wf (handleFileChange config p st).
Proof.
  intros Hwf. pose proof Hwf as [Hsorted Hfuture Hindex Hentries Hfresh Hids Hstarts].
  rewrite handleFileChange_unfold.
  set (new := {| timer_id := next_timer st;
                 timer_due := (clock st + timer_delay (debounceMs config))%N;
                 timer_path := p |}).
  assert (Hkept_sorted : StronglySorted due_le (kept_timers p st)).
  { unfold kept_timers. destruct (debounceTimers st !! p); [| exact Hsorted].
    apply filter_sorted, Hsorted. }
  assert (Hkept_ids : NoDup (timer_id <$> kept_timers p st)).
  { unfold kept_timers. destruct (debounceTimers st !! p); [| exact Hids].
    eapply sublist_NoDup; [exact Hids |]. apply fmap_sublist, sublist_filter. }
  constructor; cbn [clock pending next_timer debounceTimers started].
  - apply arm_sorted, Hkept_sorted.
  - rewrite arm_perm. constructor; [cbn; lia |].
    apply Forall_forall. intros t Ht%kept_timers_pending.
    rewrite Forall_forall in Hfuture. auto.
  - intros t Ht. rewrite arm_perm in Ht.
    apply elem_of_cons in Ht as [-> | Ht].
    + cbn. apply lookup_insert_eq.
    + rewrite lookup_insert_ne
        by (symmetry; exact (kept_timers_other p st t Hwf Ht)).
      apply Hindex, (kept_timers_pending p), Ht.
  - intros q id Hq. destruct (decide (p = q)) as [<- | Hne].
    + rewrite lookup_insert_eq in Hq. injection Hq as <-.
      exists new. rewrite arm_perm. split; [left | split; reflexivity].
    + rewrite lookup_insert_ne in Hq by exact Hne.
      destruct (Hentries q id Hq) as (t & Ht & Hid & Hp).
      exists t. rewrite arm_perm. split; [right | auto].
      apply kept_timers_all; [exact Hwf | exact Ht | congruence].
  - rewrite arm_perm. constructor; [cbn; lia |].
    apply Forall_forall. intros t Ht%kept_timers_pending.
    rewrite Forall_forall in Hfresh. specialize (Hfresh t Ht). lia.
  - rewrite arm_perm. cbn. apply NoDup_cons. split; [| exact Hkept_ids].
    intros (t & Hid & Ht%kept_timers_pending)%list_elem_of_fmap.
    rewrite Forall_forall in Hfresh. specialize (Hfresh t Ht). lia.
  - exact Hstarts.
Qed.

(** After a change of [p] exactly one timer is armed for [p]: the new one,
    due after the delay the host gives it.  The old one is gone. *)
Lemma handleFileChange_rearms (p : string) (st : Loop) :
  loop_wf st ->
  timers_of p (pending (handleFileChange config p st)) =
    [ {| timer_id := next_timer st;
         timer_due := (clock st + timer_delay (debounceMs config))%N;
         timer_path := p |} ] /\
  clock (handleFileChange config p st) = clock st /\
  started (handleFileChange config p st) = started st /\
  running (handleFileChange config p st) = running st /\
  exit_status (handleFileChange config p st) = exit_status st.
Proof.
  intros Hwf. rewrite handleFileChange_unfold. cbn [pending clock started running exit_status].
  repeat split. unfold timers_of.
  apply filter_arm_only; [reflexivity |].
  apply filter_none, Forall_forall. intros t Ht.
  exact (kept_timers_other p st t Hwf Ht).
Qed.

Lemma timers_of_cons (p : string) (t : Timer) (ts : list Timer) :
  timers_of p (t :: ts) =
    if decide (timer_path t = p) then t :: timers_of p ts else timers_of p ts.
Proof. unfold timers_of. rewrite filter_cons. reflexivity. Qed.

Lemma starts_of_cons (p : string) (s : Start) (ss : list Start) :
  starts_of p (s :: ss) =
    if decide (start_path s = p) then s :: starts_of p ss else starts_of p ss.
Proof. unfold starts_of. rewrite filter_cons. reflexivity. Qed.

(** One timer fires: the state keeps its shape. *)
Lemma fire_step_wf (st : Loop) (t : Timer) (rest : list Timer) :
  loop_wf st -> pending st = t :: rest ->
  loop_wf (timer_callback (timer_path t)
             (with_clock (N.max (clock st) (timer_due t)) (with_pending rest st))).
Proof.
  intros [Hsorted Hfuture Hindex Hentries Hfresh Hids Hstarts] Hpending.
  rewrite Hpending in *.
  apply StronglySorted_cons in Hsorted as [Hfirst Hsorted].
  apply Forall_cons in Hfuture as [Hnow Hfuture].
  apply Forall_cons in Hfresh as [_ Hfresh].
  cbn in Hids. apply NoDup_cons in Hids as [Hid Hids].
  assert (Hother : forall u, u ∈ rest -> timer_path u ≠ timer_path t).
  { intros u Hu Hp. apply Hid.
    assert (Some (timer_id t) = Some (timer_id u)) as [= ->].
    { rewrite <- (Hindex t) by left. rewrite <- (Hindex u) by (right; exact Hu).
      rewrite Hp. reflexivity. }
    apply list_elem_of_fmap. eauto. }
  constructor; cbn [timer_callback begin_upload with_debounceTimers with_clock
                    with_pending clock pending next_timer debounceTimers started].
  - exact Hsorted.
  - apply Forall_forall. intros u Hu. rewrite Forall_forall in Hfirst.
    specialize (Hfirst u Hu). unfold due_le in Hfirst. lia.
  - intros u Hu. rewrite lookup_delete_ne by (symmetry; auto).
    apply Hindex. right. exact Hu.
  - intros p id Hp. destruct (decide (timer_path t = p)) as [<- | Hne].
    + rewrite lookup_delete_eq in Hp. discriminate.
    + rewrite lookup_delete_ne in Hp by exact Hne.
      destruct (Hentries p id Hp) as (u & Hu & Huid & Hup).
      apply elem_of_cons in Hu as [-> | Hu]; [congruence | eauto].
  - exact Hfresh.
  - exact Hids.
  - constructor; [| exact Hstarts]. cbn. rewrite lookup_delete_eq.
    apply bool_decide_eq_false. intros [? [=]].
Qed.

(** What the host's pass over the due timers does, seen from one path. *)
Lemma fire_due_spec (p : string) (until : N) :
  forall (ts : list Timer) (st : Loop),
    pending st = ts -> loop_wf st ->
    loop_wf (fire_due until ts st) /\
    Forall (fun t => (until < timer_due t)%N) (pending (fire_due until ts st)) /\
    starts_of p (started (fire_due until ts st)) =
      rev (start_of <$> filter (fun t => (timer_due t <= until)%N) (timers_of p ts))
      ++ starts_of p (started st) /\
    timers_of p (pending (fire_due until ts st)) =
      filter (fun t => (until < timer_due t)%N) (timers_of p ts) /\
    exit_status (fire_due until ts st) = exit_status st.
Proof.
  induction ts as [|t rest IH]; intros st Hpending Hwf.
  - cbn [fire_due]. rewrite Hpending. split_and!; [exact Hwf | constructor | done..].
  - cbn [fire_due]. destruct (N.leb_spec (timer_due t) until) as [Hdue | Hlater].
    + set (st1 := timer_callback (timer_path t)
                    (with_clock (N.max (clock st) (timer_due t)) (with_pending rest st))).
      pose proof (fire_step_wf st t rest Hwf Hpending) as Hwf1. fold st1 in Hwf1.
      destruct (IH st1 eq_refl Hwf1) as (Hwf' & Hlater' & Hstarts' & Htimers' & Hexit').
      split; [exact Hwf' |]. split; [exact Hlater' |].
      assert (Hclock : N.max (clock st) (timer_due t) = timer_due t).
      { pose proof (wf_future st Hwf) as Hf. rewrite Hpending in Hf.
        apply Forall_cons in Hf as [Hf _]. lia. }
      split; [| split; [| exact Hexit']].
      * rewrite Hstarts', timers_of_cons.
        subst st1. cbn [timer_callback begin_upload started with_debounceTimers
                        debounceTimers clock with_clock with_pending].
        rewrite lookup_delete_eq, Hclock.
        replace (bool_decide (is_Some (@None nat))) with false
          by (symmetry; apply bool_decide_eq_false; intros [? [=]]).
        rewrite starts_of_cons. cbn [start_path].
        destruct (decide (timer_path t = p)) as [Hp | Hp]; [| reflexivity].
        rewrite filter_cons_True by exact Hdue.
        rewrite fmap_cons. cbn [rev]. rewrite <- app_assoc. reflexivity.
      * rewrite Htimers', timers_of_cons.
        destruct (decide (timer_path t = p)); [| reflexivity].
        rewrite filter_cons_False by lia. reflexivity.
    + pose proof (wf_sorted st Hwf) as Hs. rewrite Hpending in Hs.
      apply StronglySorted_cons in Hs as [Hfirst _].
      assert (Hall : Forall (fun u => (until < timer_due u)%N) (t :: rest)).
      { constructor; [exact Hlater |]. eapply Forall_impl; [exact Hfirst |].
        unfold due_le. intros; lia. }
      assert (Hall_p : Forall (fun u => (until < timer_due u)%N) (timers_of p (t :: rest))).
      { apply Forall_forall. intros u [_ Hu]%list_elem_of_filter.
        rewrite Forall_forall in Hall. auto. }
      rewrite Hpending. split_and!; [exact Hwf | exact Hall | | | done].
      * rewrite filter_none; [reflexivity |].
        eapply Forall_impl; [exact Hall_p |]. intros; cbn in *; lia.
      * rewrite filter_all by exact Hall_p. reflexivity.
Qed.

(** The passing of time keeps the shape of the state. *)
Lemma elapse_wf (dt : N) (st : Loop) : loop_wf st -> loop_wf (elapse dt st).
Proof.
  intros Hwf. unfold elapse.
  destruct (fire_due_spec "" (clock st + dt) (pending st) st eq_refl Hwf)
    as ([Hsorted _ Hindex Hentries Hfresh Hids Hstarts] & Hlater & _).
  constructor; cbn [with_clock clock pending next_timer debounceTimers started];
    try assumption.
  eapply Forall_impl; [exact Hlater |]. intros; cbn in *; lia.
Qed.

Lemma elapse_starts (p : string) (dt : N) (st : Loop) :
  loop_wf st ->
  starts_of p (started (elapse dt st)) =
    rev (start_of <$> filter (fun t => (timer_due t <= clock st + dt)%N)
                        (timers_of p (pending st)))
    ++ starts_of p (started st) /\
  timers_of p (pending (elapse dt st)) =
    filter (fun t => (clock st + dt < timer_due t)%N) (timers_of p (pending st)) /\
  clock (elapse dt st) = (clock st + dt)%N /\
  exit_status (elapse dt st) = exit_status st.
Proof.
  intros Hwf. unfold elapse.
  destruct (fire_due_spec p (clock st + dt) (pending st) st eq_refl Hwf)
    as (_ & _ & Hstarts & Htimers & Hexit).
  cbn [with_clock clock pending started exit_status]. auto.
Qed.

Lemma step_wf (st : Loop) (ev : LoopEvent) : loop_wf st -> loop_wf (step config st ev).
Proof.
  intros Hwf. unfold step. destruct (exit_status st); [exact Hwf |].
  destruct ev as [p | dt | p | | | p].
  - apply handleFileChange_wf, Hwf.
  - apply elapse_wf, Hwf.
  - destruct Hwf. constructor; assumption.
  - destruct Hwf. constructor; assumption.
  - destruct Hwf. constructor; assumption.
  - unfold on_stream_error. destruct (bool_decide _); [| exact Hwf].
    destruct Hwf. constructor; assumption.
Qed.

Lemma run_wf (evs : list LoopEvent) :
  forall st, loop_wf st -> loop_wf (run config st evs).
Proof.
  induction evs as [|ev evs IH]; intros st Hwf; [exact Hwf |].
  apply IH, step_wf, Hwf.
Qed.

Lemma initial_loop_wf : loop_wf initial_loop.
Proof.
  constructor; cbn; try constructor.
  - intros t Ht. inv Ht.
  - intros p id Hp. rewrite lookup_empty in Hp. discriminate.
Qed.

Lemma filter_filter_keep (P Q : Timer -> Prop)
      `{!forall t, Decision (P t)} `{!forall t, Decision (Q t)} (ts : list Timer) :
  (forall t, t ∈ ts -> P t -> Q t) -> filter P (filter Q ts) = filter P ts.
Proof.
  induction ts as [|t ts IH]; intros Himp; [reflexivity |].
  rewrite (filter_cons Q). rewrite (filter_cons P).
  destruct (decide (Q t)) as [Hq | Hq].
  - rewrite filter_cons. destruct (decide (P t)); rewrite IH; try reflexivity;
      intros x Hx; apply Himp; right; exact Hx.
  - destruct (decide (P t)) as [Hp | Hp].
    + exfalso. apply Hq, Himp; [left | exact Hp].
    + apply IH. intros x Hx. apply Himp. right. exact Hx.
Qed.

(** The timers of the other paths are left alone. *)
Lemma handleFileChange_others (p q : string) (st : Loop) :
  loop_wf st -> p ≠ q ->
  timers_of p (pending (handleFileChange config q st)) = timers_of p (pending st).
Proof.
  intros Hwf Hne. rewrite handleFileChange_unfold. cbn [pending]. unfold timers_of.
  rewrite filter_arm_other by (cbn; congruence).
  pose proof (kept_timers_all q st) as Hall. unfold kept_timers in *.
  destruct (debounceTimers st !! q) as [old|] eqn:Hold; [| reflexivity].
  apply filter_filter_keep. intros t Ht Hp.
  specialize (Hall t Hwf Ht ltac:(congruence)).
  apply list_elem_of_filter in Hall as [Hid _]. exact Hid.
Qed.

End Debouncer.

Section Debounce.

Variable config : Config.

Lemma loop_reachable_wf (st : Loop) : loop_reachable config st -> loop_wf st.
Proof. intros [evs ->]. apply run_wf, initial_loop_wf. Qed.

Lemma run_app (st : Loop) (evs1 evs2 : list LoopEvent) :
  run config st (evs1 ++ evs2) = run config (run config st evs1) evs2.
Proof. unfold run. apply fold_left_app. Qed.

Lemma loop_reachable_run (st : Loop) (evs : list LoopEvent) :
  loop_reachable config st -> loop_reachable config (run config st evs).
Proof. intros [evs0 ->]. exists (evs0 ++ evs). symmetry. apply run_app. Qed.

Lemma run_cons (st : Loop) (ev : LoopEvent) (evs : list LoopEvent) :
  run config st (ev :: evs) = run config (step config st ev) evs.
Proof. reflexivity. Qed.

(** After the process has ended nothing runs. *)
Lemma step_dead (st : Loop) (ev : LoopEvent) :
  exit_status st <> None -> step config st ev = st.
Proof. unfold step. destruct (exit_status st); [reflexivity | congruence]. Qed.

Lemma run_dead (evs : list LoopEvent) (st : Loop) :
  exit_status st <> None -> run config st evs = st.
Proof.
  intros Hdead. induction evs as [|ev evs IH]; [reflexivity |].
  rewrite run_cons, step_dead by exact Hdead. exact IH.
Qed.

Lemma step_change (st : Loop) (p : string) :
  exit_status st = None ->
  step config st (FileChanged p) = handleFileChange config p st.
Proof. unfold step. intros ->. reflexivity. Qed.

Lemma step_elapse (st : Loop) (dt : N) :
  exit_status st = None -> step config st (Elapse dt) = elapse dt st.
Proof. unfold step. intros ->. reflexivity. Qed.

(** One event that leaves [p] alone: only the passing of time touches the
    timers and the uploads of [p]. *)
Lemma quiet_step (p : string) (ev : LoopEvent) (st : Loop) :
  loop_wf st -> exit_status st = None -> leaves_alone p ev = true ->
  let st' := step config st ev in
  exit_status st' = None /\
  clock st' = (clock st + elapsed [ev])%N /\
  match ev with
  | Elapse dt =>
      starts_of p (started st') =
        rev (start_of <$> filter (fun t => (timer_due t <= clock st + dt)%N)
                            (timers_of p (pending st)))
        ++ starts_of p (started st) /\
      timers_of p (pending st') =
        filter (fun t => (clock st + dt < timer_due t)%N) (timers_of p (pending st))
  | _ =>
      starts_of p (started st') = starts_of p (started st) /\
      timers_of p (pending st') = timers_of p (pending st)
  end.
Proof.
  intros Hwf Halive Hquiet. cbv zeta. unfold step. rewrite Halive.
  destruct ev as [q | dt | q | | | q]; try discriminate; cbn [elapsed].
  - cbn in Hquiet. apply negb_true_iff, String.eqb_neq in Hquiet.
    destruct (handleFileChange_rearms config q st Hwf) as (_ & Hclock & Hstarted & _ & Hexit).
    rewrite Hclock, Hstarted, Hexit.
    rewrite (handleFileChange_others config p q st Hwf) by congruence.
    split_and!; try done. lia.
  - destruct (elapse_starts p dt st Hwf) as (Hstarts & Htimers & Hclock & Hexit).
    rewrite Hclock, Hexit. split_and!; try done. lia.
  - cbn. split_and!; try done. lia.
Qed.

(** A stretch of events that leave [p] alone. *)
Lemma quiet_run (p : string) (evs : list LoopEvent) :
  forall st : Loop,
    loop_wf st -> exit_status st = None ->
    Forall (fun ev => leaves_alone p ev = true) evs ->
    let st' := run config st evs in
    loop_wf st' /\ exit_status st' = None /\
    clock st' = (clock st + elapsed evs)%N /\
    (timers_of p (pending st) = [] ->
     timers_of p (pending st') = [] /\
     starts_of p (started st') = starts_of p (started st)) /\
    (forall tm, timers_of p (pending st) = [tm] ->
     (timers_of p (pending st') = [tm] /\
      starts_of p (started st') = starts_of p (started st)) \/
     (timers_of p (pending st') = [] /\
      starts_of p (started st') = start_of tm :: starts_of p (started st))) /\
    (forall tm, timers_of p (pending st) = [tm] ->
     (clock st + elapsed evs < timer_due tm)%N ->
     timers_of p (pending st') = [tm] /\
     starts_of p (started st') = starts_of p (started st)).
Proof.
  induction evs as [|ev evs IH]; intros st Hwf Halive Hquiet; cbv zeta.
  - cbn [run fold_left elapsed]. split_and!; try done; [lia | auto].
  - apply Forall_cons in Hquiet as [Hev Hquiet]. rewrite run_cons.
    destruct (quiet_step p ev st Hwf Halive Hev) as (Halive1 & Hclock1 & Hstep).
    pose proof (step_wf config st ev Hwf) as Hwf1.
    set (st1 := step config st ev) in *.
    destruct (IH st1 Hwf1 Halive1 Hquiet)
      as (Hwf' & Halive' & Hclock' & Hnone & Hone & Hlater).
    set (st' := run config st1 evs) in *.
    assert (Helapsed : (clock st1 + elapsed evs = clock st + elapsed (ev :: evs))%N).
    { rewrite Hclock1. destruct ev; cbn [elapsed]; lia. }
    split_and!; try done.
    + congruence.
    + intros Hempty. destruct ev; rewrite Hempty in Hstep;
        (destruct Hstep as [Hs Ht]; destruct (Hnone Ht) as [Ht' Hs'];
         split; [exact Ht' | rewrite Hs', Hs; reflexivity]).
    + intros tm Htm.
      assert (Hcases :
        (timers_of p (pending st1) = [tm] /\
         starts_of p (started st1) = starts_of p (started st)) \/
        (timers_of p (pending st1) = [] /\
         starts_of p (started st1) = start_of tm :: starts_of p (started st))).
      { destruct ev as [q | dt | q | | | q]; try discriminate; rewrite Htm in Hstep;
          destruct Hstep as [Hs Ht]; try (left; done).
        destruct (decide (timer_due tm <= clock st + dt)%N) as [Hdue | Hdue].
        - right. rewrite filter_cons_True in Hs by exact Hdue.
          rewrite filter_cons_False in Ht by lia. done.
        - left. rewrite filter_cons_False in Hs by exact Hdue.
          rewrite filter_cons_True in Ht by lia. done. }
      destruct Hcases as [[Ht1 Hs1] | [Ht1 Hs1]].
      * destruct (Hone tm Ht1) as [[Ht' Hs'] | [Ht' Hs']]; [left | right];
          (split; [exact Ht' | rewrite Hs', Hs1; reflexivity]).
      * destruct (Hnone Ht1) as [Ht' Hs']. right.
        split; [exact Ht' | rewrite Hs', Hs1; reflexivity].
    + intros tm Htm Hbefore.
      assert (Hstep1 : timers_of p (pending st1) = [tm] /\
                       starts_of p (started st1) = starts_of p (started st)).
      { destruct ev as [q | dt | q | | | q]; try discriminate; rewrite Htm in Hstep;
          destruct Hstep as [Hs Ht]; try done.
        cbn [elapsed] in Hbefore.
        rewrite filter_cons_False in Hs by (cbn [timer_due]; lia).
        rewrite filter_cons_True in Ht by (cbn [timer_due]; lia). done. }
      destruct Hstep1 as [Ht1 Hs1].
      destruct (Hlater tm Ht1 ltac:(lia)) as [Ht' Hs'].
      split; [exact Ht' | rewrite Hs', Hs1; reflexivity].
Qed.


(** A burst of changes of [p] whose gaps are shorter than the debounce
    interval starts no upload of [p] and leaves one timer armed for [p], due
    one interval after the last change. *)
Lemma burst_rearms (p : string) (gaps : list (list LoopEvent)) :
  forall st : Loop,
    loop_wf st -> exit_status st = None ->
    Forall (short_gap p (timer_delay (debounceMs config))) gaps ->
    let st' := run config st (burst p gaps) in
    loop_wf st' /\ exit_status st' = None /\
    clock st' = (clock st + burst_length gaps)%N /\
    starts_of p (started st') = starts_of p (started st) /\
    exists id,
      timers_of p (pending st') =
        [ {| timer_id := id;
             timer_due := (clock st' + timer_delay (debounceMs config))%N;
             timer_path := p |} ].
Proof.
  induction gaps as [|gap gaps IH]; intros st Hwf Halive Hgaps; cbv zeta;
    cbn [burst]; rewrite run_cons, step_change by exact Halive;
    destruct (handleFileChange_rearms config p st Hwf)
      as (Htimers & Hclock & Hstarted & _ & Hexit);
    pose proof (handleFileChange_wf config p st Hwf) as Hwf1;
    set (st1 := handleFileChange config p st) in *.
  - cbn [run fold_left]. split_and!.
    + exact Hwf1.
    + congruence.
    + rewrite Hclock. change (burst_length []) with 0%N. lia.
    + congruence.
    + eexists. rewrite Htimers, Hclock. reflexivity.
  - apply Forall_cons in Hgaps as [[Hquiet Hshort] Hgaps].
    rewrite run_app.
    destruct (quiet_run p gap st1 Hwf1 ltac:(congruence) Hquiet)
      as (Hwf2 & Halive2 & Hclock2 & _ & _ & Hlater).
    destruct (Hlater _ Htimers ltac:(cbn [timer_due]; lia)) as [_ Hstarts2].
    set (st2 := run config st1 gap) in *.
    destruct (IH st2 Hwf2 Halive2 Hgaps)
      as (Hwf' & Hexit' & Hclock' & Hstarts' & id & Htimers').
    split_and!.
    + exact Hwf'.
    + exact Hexit'.
    + rewrite Hclock', Hclock2, Hclock.
      change (burst_length (gap :: gaps)) with (elapsed gap + burst_length gaps)%N.
      lia.
    + rewrite Hstarts', Hstarts2, Hstarted. reflexivity.
    + eauto.
Qed.

(** C5. Debounce coalescing, for a debounce interval the host takes as it
    is (1 to 2^31 - 1 milliseconds) and as long as the process lives: after
    any run of the process that has not ended it, take a burst of changes
    of [p] in which less than the debounce interval passes between one
    change and the next, whatever else happens in between to other paths,
    followed by a silence for [p] in which at least the interval passes; in
    the gaps and in the silence no signal arrives and no read stream fails
    unheard.  Exactly one upload of [p] is started, at the time of the last
    change plus the interval.  Each change leaves exactly one timer armed
    for [p], the new one: the timer that was pending for [p] is cancelled
    and replaced. *)
Theorem debounce_coalesces (p : string) (gaps : list (list LoopEvent))
        (before : list LoopEvent) (dt : N) (after : list LoopEvent) (st : Loop) :
  valid_delay (debounceMs config) ->
  loop_reachable config st ->
  exit_status st = None ->
  Forall (short_gap p (debounceMs config)) gaps ->
  quiet p before -> quiet p after ->
  (debounceMs config <= elapsed before + dt)%N ->
  starts_of p (started (run config st
                          (burst p gaps ++ before ++ Elapse dt :: after))) =
    {| start_time := (clock st + burst_length gaps + debounceMs config)%N;
       start_path := p; start_entry := false |}
    :: starts_of p (started st) /\
  timers_of p (pending (step config st (FileChanged p))) =
    [ {| timer_id := next_timer st;
         timer_due := (clock st + debounceMs config)%N;
         timer_path := p |} ].
Proof.
  intros Hvalid Hreach Halive Hgaps Hbefore Hafter Hsilence.
  pose proof (timer_delay_valid _ Hvalid) as Hdelay.
  revert Hgaps Hsilence. rewrite <- Hdelay. intros Hgaps Hsilence.
  set (delay := timer_delay (debounceMs config)) in *.
  pose proof (loop_reachable_wf st Hreach) as Hwf. split.
  - rewrite !run_app, run_cons.
    destruct (burst_rearms p gaps st Hwf Halive Hgaps)
      as (Hwf1 & Halive1 & Hclock1 & Hstarts1 & id & Htimers1).
    fold delay in Htimers1.
    set (st1 := run config st (burst p gaps)) in *.
    set (tm := {| timer_id := id; timer_due := (clock st1 + delay)%N;
                  timer_path := p |}) in *.
    destruct (quiet_run p before st1 Hwf1 Halive1 Hbefore)
      as (Hwf2 & Halive2 & Hclock2 & _ & Hone & _).
    specialize (Hone tm Htimers1).
    set (st2 := run config st1 before) in *.
    rewrite step_elapse by exact Halive2.
    destruct (elapse_starts p dt st2 Hwf2) as (Hstarts3 & Htimers3 & _ & Halive3).
    pose proof (elapse_wf dt st2 Hwf2) as Hwf3.
    set (st3 := elapse dt st2) in *.
    destruct (quiet_run p after st3 Hwf3 ltac:(congruence) Hafter)
      as (_ & _ & _ & Hnone & _ & _).
    assert (Hfired : timers_of p (pending st3) = [] /\
                     starts_of p (started st3) =
                       start_of tm :: starts_of p (started st1)).
    { destruct Hone as [[Ht2 Hs2] | [Ht2 Hs2]];
        rewrite Ht2 in Hstarts3, Htimers3.
      - rewrite filter_cons_True in Hstarts3 by (cbn [timer_due tm]; lia).
        rewrite filter_cons_False in Htimers3 by (cbn [timer_due tm]; lia).
        rewrite Hs2 in Hstarts3. done.
      - rewrite Hs2 in Hstarts3. done. }
    destruct Hfired as [Ht3 Hs3]. destruct (Hnone Ht3) as [_ Hs4].
    rewrite Hs4, Hs3, Hstarts1. unfold start_of, tm. cbn [timer_due timer_path].
    rewrite Hclock1. reflexivity.
  - rewrite step_change by exact Halive.
    apply (handleFileChange_rearms config p st Hwf).
Qed.

(** C6, as the code has it.  SIGINT is the one signal the program handles:
    its handler closes the watcher and exits with status 0.  It cancels
    nothing: the timers that were pending are still armed, and their entries
    still in the map, when the process exits; since nothing runs after the
    exit, none of their callbacks fires and no upload is started, whatever
    happens later and however much time passes.  SIGTERM has no listener:
    the host's default handler ends the process, the watcher is not closed
    by the program and the status is 143, not 0. *)
Theorem sigint_shutdown (st : Loop) (later : list LoopEvent) :
  exit_status st = None ->
  let st' := step config st Signal_SIGINT in
  let st'' := step config st Signal_SIGTERM in
  (watcher_closed st' = true /\
   exit_status st' = Some 0%Z /\
   pending st' = pending st /\
   debounceTimers st' = debounceTimers st /\
   run config st' later = st' /\
   started (run config st' later) = started st) /\
  (watcher_closed st'' = watcher_closed st /\
   exit_status st'' = Some 143%Z /\
   pending st'' = pending st /\
   run config st'' later = st'' /\
   started (run config st'' later) = started st).
Proof.
  intros Halive. cbv zeta.
  assert (Hint : step config st Signal_SIGINT = on_SIGINT st)
    by (unfold step; rewrite Halive; reflexivity).
  assert (Hterm : step config st Signal_SIGTERM = on_SIGTERM st)
    by (unfold step; rewrite Halive; reflexivity).
  rewrite Hint, Hterm.
  rewrite !run_dead by (cbn [on_SIGINT on_SIGTERM exit_status]; discriminate).
  split; split_and!; reflexivity.
Qed.

Lemma one_timer_per_path (st : Loop) (p : string) :
  loop_wf st -> length (timers_of p (pending st)) <= 1.
Proof.
  intros Hwf.
  assert (Hinj : forall t u, t ∈ pending st -> u ∈ pending st ->
                             timer_path t = timer_path u -> t = u).
  { intros t u Ht Hu Hp.
    apply (same_id_same_timer (pending st)); try assumption; [apply Hwf |].
    assert (Some (timer_id t) = Some (timer_id u)) as [= ->]; [| reflexivity].
    rewrite <- (wf_index st Hwf t Ht), <- (wf_index st Hwf u Hu), Hp. reflexivity. }
  pose proof (NoDup_fmap_1 _ _ (wf_ids st Hwf)) as Hnodup.
  revert Hinj Hnodup. generalize (pending st). intros ts.
  induction ts as [|t ts IH]; intros Hinj Hnodup; [cbn; lia |].
  apply NoDup_cons in Hnodup as [Ht Hnodup].
  rewrite timers_of_cons. destruct (decide (timer_path t = p)) as [Hp | Hp].
  - assert (Hnone : timers_of p ts = []).
    { apply filter_none, Forall_forall. intros u Hu Hup. apply Ht.
      rewrite (Hinj t u); [exact Hu | left | right; exact Hu | congruence]. }
    rewrite Hnone. cbn. lia.
  - apply IH; [| exact Hnodup]. intros x y Hx Hy. apply Hinj; right; assumption.
Qed.

(** C10, as the code has it. In every reachable state at most one timer is
    armed per path, the map has an entry for a path exactly when a timer is
    armed for it, and the entry is that timer's handle; a change of [p]
    leaves the new timer, due after the delay the host gives it, as the only
    one of [p]; and at the moment an upload was started the map had no entry
    for its path. *)
Theorem one_entry_per_path (st : Loop) (p : string) :
  loop_reachable config st ->
  length (timers_of p (pending st)) <= 1 /\
  (forall id, debounceTimers st !! p = Some id <->
              exists t, t ∈ timers_of p (pending st) /\ timer_id t = id) /\
  (exit_status st = None ->
   timers_of p (pending (step config st (FileChanged p))) =
     [ {| timer_id := next_timer st;
          timer_due := (clock st + timer_delay (debounceMs config))%N;
          timer_path := p |} ]) /\
  Forall (fun s => start_entry s = false) (started st).
Proof.
  intros Hreach. pose proof (loop_reachable_wf st Hreach) as Hwf.
  split_and!.
  - apply one_timer_per_path, Hwf.
  - intros id. split.
    + intros Hid. destruct (wf_entries st Hwf p id Hid) as (t & Ht & Htid & Htp).
      exists t. split; [| exact Htid]. apply list_elem_of_filter. auto.
    + intros (t & [Htp Ht]%list_elem_of_filter & Htid).
      rewrite <- Htp, <- Htid. apply (wf_index st Hwf t Ht).
  - intros Halive. rewrite step_change by exact Halive.
    apply (handleFileChange_rearms config p st Hwf).
  - apply Hwf.
Qed.

End Debounce.

(** C10, as it is worded, fails when a file changes again while its upload
    is running: the upload of the first change is still going and the map
    holds the timer of the second change. *)
Lemma entry_while_upload_runs :
  let st := run example_config initial_loop example_changes in
  loop_reachable example_config st /\
  "/watch/a.bar" ∈ running st /\
  debounceTimers st !! "/watch/a.bar" = Some 1 /\
  ~ no_entry_while_running st.
Proof.
  cbv zeta. split; [eexists; reflexivity |].
  assert (Hrun : "/watch/a.bar" ∈
                 running (run example_config initial_loop example_changes))
    by (vm_compute; left).
  assert (Hentry : debounceTimers (run example_config initial_loop example_changes)
                   !! "/watch/a.bar" = Some 1) by reflexivity.
  split; [exact Hrun | split; [exact Hentry |]].
  intros Hno. specialize (Hno _ Hrun). rewrite Hentry in Hno. discriminate.
Qed.

Lemma debounce_coalesces_witness :
  starts_of "/watch/a.bar"
    (started (run example_config initial_loop
                (burst "/watch/a.bar"
                   [ [Elapse 400; FileChanged "/watch/b.bar"]; [Elapse 999]; [] ]
                 ++ [Elapse 700; UploadSettled "/watch/b.bar"]
                 ++ Elapse 300 :: [FileChanged "/watch/b.bar"; Elapse 5000])))
  = [ {| start_time := 2399; start_path := "/watch/a.bar"; start_entry := false |} ].
Proof.
  refine (proj1 (debounce_coalesces example_config "/watch/a.bar"
                   [ [Elapse 400; FileChanged "/watch/b.bar"]; [Elapse 999]; [] ]
                   [Elapse 700; UploadSettled "/watch/b.bar"] 300%N
                   [FileChanged "/watch/b.bar"; Elapse 5000]
                   initial_loop _ _ _ _ _ _ _)).
  - split; apply N.leb_le; reflexivity.
  - exists []. reflexivity.
  - reflexivity.
  - repeat constructor.
  - repeat constructor.
  - repeat constructor.
  - vm_compute. discriminate.
Defined.

(** C6, as it is worded, fails.  With a change of [/watch/a.bar] waiting
    for its quiet period, SIGINT ends the process with the timer still armed
    and its entry still in the map: nothing was cancelled.  SIGTERM ends it
    with the watcher not closed and a status other than 0. *)
Lemma shutdown_cancels_no_timer :
  let st := run example_config initial_loop [FileChanged "/watch/a.bar"; Elapse 10] in
  loop_reachable example_config st /\
  exit_status st = None /\
  pending (step example_config st Signal_SIGINT) =
    [ {| timer_id := 0; timer_due := 1000; timer_path := "/watch/a.bar" |} ] /\
  debounceTimers (step example_config st Signal_SIGINT) !! "/watch/a.bar" = Some 0 /\
  ~ graceful_shutdown (step example_config st Signal_SIGINT) /\
  watcher_closed (step example_config st Signal_SIGTERM) = false /\
  exit_status (step example_config st Signal_SIGTERM) = Some 143%Z /\
  ~ graceful_shutdown (step example_config st Signal_SIGTERM).
Proof.
  cbv zeta. split_and!.
  - eexists. reflexivity.
  - reflexivity.
  - reflexivity.
  - reflexivity.
  - intros (Hpending & _). vm_compute in Hpending. discriminate.
  - reflexivity.
  - reflexivity.
  - intros (Hpending & _). vm_compute in Hpending. discriminate.
Qed.

Lemma sigint_shutdown_witness :
  let st := run example_config initial_loop [FileChanged "/watch/a.bar"; Elapse 10] in
  let st' := step example_config st Signal_SIGINT in
  let st'' := step example_config st Signal_SIGTERM in
  (watcher_closed st' = true /\
   exit_status st' = Some 0%Z /\
   pending st' = pending st /\
   debounceTimers st' = debounceTimers st /\
   run example_config st' [Elapse 5000] = st' /\
   started (run example_config st' [Elapse 5000]) = started st) /\
  (watcher_closed st'' = watcher_closed st /\
   exit_status st'' = Some 143%Z /\
   pending st'' = pending st /\
   run example_config st'' [Elapse 5000] = st'' /\
   started (run example_config st'' [Elapse 5000]) = started st).
Proof.
  cbv zeta.
  apply (sigint_shutdown example_config
           (run example_config initial_loop [FileChanged "/watch/a.bar"; Elapse 10])
           [Elapse 5000]).
  reflexivity.
Defined.

Lemma one_entry_per_path_witness :
  let st := run example_config initial_loop example_changes in
  length (timers_of "/watch/a.bar" (pending st)) <= 1.
Proof.
  cbv zeta.
  refine (proj1 (one_entry_per_path example_config
                   (run example_config initial_loop example_changes)
                   "/watch/a.bar" _)).
  exists example_changes. reflexivity.
Defined.

(** * Further properties of the code *)

(** ** More on the token cache *)

Section TokenCacheMore.

Variable config : Config.
Variable env : Env.

(** The events a call of [generateToken] adds, by kind. *)
Lemma generateToken_events (w : World) r w' :
  generateToken config env w = (r, w') ->
  exists new,
    trace w' = new ++ trace w /\
    List.filter is_FetchToken new =
      (if cache_fresh env w then [] else [FetchToken (token_request config)]) /\
    List.filter is_ConsoleError new =
      match r with
      | Throws e => [ConsoleError [Text "❌ Error generating token:"; Text (message e)]]
      | _ => []
      end.
Proof.
  unfold cache_fresh. destruct w as [tok expiry tr].
  cbn [cachedToken tokenExpiry trace].
  all_paths; try congruence; new_events; split; reflexivity.
Qed.


Lemma generateToken_errors (w : World) r w' :
  generateToken config env w = (r, w') ->
  calls is_ConsoleError (trace w') =
    (match r with Throws _ => 1 | _ => 0 end) + calls is_ConsoleError (trace w).
Proof.
  destruct w as [tok expiry tr]. all_paths; count_calls; reflexivity.
Qed.

(** The expiry an acquisition stores: the clock read it made after the
    response, plus the validity window. *)
Lemma generateToken_expiry (w : World) v w' :
  generateToken config env w = (Returns v, w') ->
  cache_fresh env w = false ->
  tokenExpiry w' =
    Some (env_now env (Nat.pred (calls is_DateNow (trace w'))) + token_ttl)%N.
Proof.
  unfold cache_fresh. destruct w as [tok expiry tr].
  cbn [cachedToken tokenExpiry trace].
  all_paths; count_calls; cbn [Nat.pred]; try congruence; reflexivity.
Qed.

(** X1. Token expiry: once the clock read has reached the stored expiry,
    [generateToken] issues a new token request, whatever is stored; when it
    returns, the value it returns is the one now cached and the new expiry is
    the clock read made after the response plus 50 minutes. *)
Theorem expired_token_is_replaced (w : World) (e : N) :
  tokenExpiry w = Some e ->
  (e <= env_now env (calls is_DateNow (trace w)))%N ->
  let run := generateToken config env w in
  calls is_FetchToken (trace (snd run)) = S (calls is_FetchToken (trace w)) /\
  (forall tok, fst run = Returns tok ->
     cachedToken (snd run) = tok /\
     tokenExpiry (snd run) =
       Some (env_now env (Nat.pred (calls is_DateNow (trace (snd run))))
             + 50 * 60 * 1000)%N).
Proof.
  intros Hexp Hlate. cbv zeta.
  assert (Hmiss : cache_fresh env w = false).
  { unfold cache_fresh. rewrite Hexp.
    apply N.ltb_ge in Hlate. rewrite Hlate.
    destruct (truthy (cachedToken w)), (negb (e =? 0)%N); reflexivity. }
  destruct (generateToken config env w) as [r w'] eqn:Hrun. cbn [fst snd].
  destruct (generateToken_history _ _ _ _ _ Hrun) as (_ & Hft & _).
  rewrite Hmiss in Hft. split; [exact Hft |].
  intros tok ->.
  destruct (generateToken_cache _ _ _ _ _ Hrun) as (Hret & _).
  split; [apply Hret; reflexivity |].
  exact (generateToken_expiry w tok w' Hrun Hmiss).
Qed.

(** X2. The token request: a call of [generateToken] that the cache does not
    answer issues exactly one request, a POST to [{apiBaseUrl}/api/v1/tokens]
    with the five headers and the body [{"apiKey": apiKey}]; a call the cache
    answers issues none. *)
Theorem token_request_shape (w : World) :
  let run := generateToken config env w in
  let req :=
    {| req_url := apiBaseUrl config +:+ "/api/v1/tokens";
       req_method := "POST";
       req_headers :=
         [ ("X-IBM-Instance-Id", instanceId config);
           ("Content-Type", "application/json");
           ("Accept", "application/json");
           ("X-IBM-Client-Id", clientId config);
           ("X-IBM-Client-Secret", clientSecret config) ];
       req_body := BodyJson [ ("apiKey", apiKey config) ] |} in
  exists new,
    trace (snd run) = new ++ trace w /\
    List.filter is_FetchToken new =
      (if cache_fresh env w then [] else [FetchToken req]).
Proof.
  cbv zeta. destruct (generateToken config env w) as [r w'] eqn:Hrun. cbn [snd].
  destruct (generateToken_events _ _ _ Hrun) as (new & Htrace & Hft & _).
  exists new. split; [exact Htrace | exact Hft].
Qed.

(** X3. A token response without a usable [access_token]: when the token
    endpoint answers 200 and the parsed body has no truthy [access_token]
    (the property is missing, null or empty), [generateToken] does not fail:
    it returns that value and stores it with a fresh expiry, and since the
    stored value is not truthy the next call issues a token request again,
    whatever the clock reads. *)
Theorem token_without_value_is_not_reused (w : World) (resp : Response)
        (body tok : JsValue) :
  cache_fresh env w = false ->
  env_token env (calls is_FetchToken (trace w)) (token_request config) = Resolved resp ->
  ok resp = true ->
  json resp = Resolved body ->
  get_prop body "access_token" = Resolved tok ->
  truthy tok = false ->
  exists w',
    generateToken config env w = (Returns tok, w') /\
    cachedToken w' = tok /\
    (exists t, tokenExpiry w' = Some (t + token_ttl)%N) /\
    calls is_FetchToken (trace (snd (generateToken config env w'))) =
      2 + calls is_FetchToken (trace w).
Proof.
  intros Hmiss Hanswer Hok Hbody Hprop Hfalsy.
  assert (Hnok : negb (ok resp) = false) by (rewrite Hok; reflexivity).
  destruct (generateToken config env w) as [r w'] eqn:Hrun.
  assert (Hr : r = Returns tok).
  { revert Hrun Hmiss Hanswer. unfold cache_fresh. destruct w as [tok0 expiry tr].
    cbn [cachedToken tokenExpiry trace].
    all_paths; intros; try congruence. }
  subst r. exists w'.
  destruct (generateToken_cache _ _ _ _ _ Hrun) as (Hret & _ & _ & Hexp).
  destruct (generateToken_history _ _ _ _ _ Hrun) as (_ & Hft & _).
  rewrite Hmiss in Hft.
  pose proof (Hret tok eq_refl) as Htok.
  split_and!; [reflexivity | exact Htok | exact (Hexp Hmiss tok eq_refl) |].
  assert (Hmiss' : cache_fresh env w' = false)
    by (unfold cache_fresh; rewrite Htok, Hfalsy; reflexivity).
  destruct (generateToken config env w') as [r2 w2] eqn:Hrun2.
  destruct (generateToken_history _ _ _ _ _ Hrun2) as (_ & Hft2 & _).
  cbn [snd]. rewrite Hft2, Hmiss', Hft. reflexivity.
Qed.

(** X4. How [generateToken] reports: a call that throws has written exactly
    one error line, which carries the message of the error it throws, and has
    left both cache variables as they were; a call that returns has written
    no error line and returns what is now cached. *)
Theorem token_failure_is_logged_once (w : World) :
  let run := generateToken config env w in
  exists new,
    trace (snd run) = new ++ trace w /\
    match fst run with
    | Throws e =>
        List.filter is_ConsoleError new =
          [ConsoleError [Text "❌ Error generating token:"; Text (message e)]] /\
        cachedToken (snd run) = cachedToken w /\
        tokenExpiry (snd run) = tokenExpiry w
    | Returns v =>
        List.filter is_ConsoleError new = [] /\ cachedToken (snd run) = v
    | Unfinished => False
    end.
Proof.
  cbv zeta. destruct (generateToken config env w) as [r w'] eqn:Hrun. cbn [fst snd].
  destruct (generateToken_events _ _ _ Hrun) as (new & Htrace & _ & Hce).
  destruct (generateToken_cache _ _ _ _ _ Hrun) as (Hret & Hthrow & _).
  destruct (generateToken_history _ _ _ _ _ Hrun) as (Hsettles & _).
  exists new. split; [exact Htrace |].
  destruct r as [v | e |]; [| | congruence].
  - split; [exact Hce | apply Hret; reflexivity].
  - destruct (Hthrow e eq_refl) as [Htok Hexp]. auto.
Qed.

End TokenCacheMore.

(** ** More on the upload operation *)

(** The start of a pass whose token step returns and whose file system
    calls succeed, up to the upload call. *)
Ltac run_to_upload w Htoken Hstream Hstat :=
  destruct w as [tok expiry tr];
  unfold pass_token in Htoken;
  cbv [console_log emit bind cachedToken tokenExpiry trace] in Htoken;
  cbn [trace] in Hstream, Hstat;
  unfold_pass;
  lazymatch type of Htoken with
  | fst ?run = _ =>
      let Hrun := fresh "Hrun" in
      destruct run as [r1 [tok1 expiry1 tr1]] eqn:Hrun;
      cbn [fst] in Htoken; subst r1;
      destruct (generateToken_history _ _ _ _ _ Hrun)
        as (_ & Hft & Hfu & Hcrs & Hss & Hcl & (new1 & Hnew1 & Hnone));
      destruct (generateToken_cache _ _ _ _ _ Hrun) as (Hret & _);
      specialize (Hret _ eq_refl);
      tidy; subst tok1;
      rewrite Hcrs, Hstream; cbv beta iota zeta; count_calls;
      rewrite Hss, Hstat; cbv beta iota zeta; count_calls;
      rewrite Hfu
  end.

Ltac world_fields_in H := cbn [cachedToken tokenExpiry trace] in H.


Section UploadMore.

Variable config : Config.
Variable env : Env.

(** The state a pass hands to its token step. *)
Lemma cache_fresh_logged (w : World) (args : list ConsoleArg) :
  cache_fresh env (snd (console_log args w)) = cache_fresh env w.
Proof. reflexivity. Qed.

(** A pass issues the token requests of its token step and no other. *)
Lemma pass_token_calls (filePath : string) (w : World) :
  calls is_FetchToken (trace (snd (uploadBarFile_pass config env filePath w))) =
  (if cache_fresh env w then 0 else 1) + calls is_FetchToken (trace w).
Proof.
  set (w0 := snd (console_log
                    [Text ("📤 Uploading " +:+ basename filePath +:+ "...")] w)).
  assert (Hstep : calls is_FetchToken
                    (trace (snd (uploadBarFile_pass config env filePath w))) =
                  calls is_FetchToken (trace (snd (generateToken config env w0)))).
  { subst w0.
    destruct (uploadBarFile_pass config env filePath w) as [r w'] eqn:Hpass.
    cbn [snd]. revert Hpass. destruct w as [tok expiry tr].
    cbv [console_log emit snd]. cbn [cachedToken tokenExpiry trace].
    unfold_pass; repeat case_step;
      (let H := fresh in intros H; inversion H; subst; clear H); tidy; count_calls;
      reflexivity. }
  rewrite Hstep.
  destruct (generateToken config env w0) as [r1 w1] eqn:Hrun.
  destruct (generateToken_history _ _ _ _ _ Hrun) as (_ & Hft & _).
  cbn [snd]. rewrite Hft. reflexivity.
Qed.

(** An answer other than a 401 ends the operation: no clearing of the
    cache, the token stays cached as the token step left it. *)
Lemma pass_not_401 (filePath : string) (w : World) token size :
  pass_token config env filePath w = Returns token ->
  env_createReadStream env (calls is_CreateReadStream (trace w)) filePath = Resolved tt ->
  env_statSync env (calls is_StatSync (trace w)) filePath = Resolved size ->
  not_401 (env_upload env (calls is_FetchUpload (trace w))
             (upload_request config (basename filePath) filePath token size)) ->
  exists w',
    uploadBarFile_pass config env filePath w = (Returns false, w') /\
    cachedToken w' = token /\
    calls is_Cleared (trace w') = calls is_Cleared (trace w) /\
    calls is_FetchUpload (trace w') = S (calls is_FetchUpload (trace w)).
Proof.
  intros Htoken Hstream Hstat Hnot.
  destruct (uploadBarFile_pass config env filePath w) as [r w'] eqn:Hpass.
  exists w'. revert Hpass Hnot. unfold not_401.
  run_to_upload w Htoken Hstream Hstat.
  repeat case_step;
    (let H := fresh in intros H; inversion H; subst; clear H); tidy; count_calls;
    intros Hnot; rewrite ?Hcl, ?Hfu; try (repeat split; reflexivity).
  all: match goal with
       | H : (status _ =? 401)%N && _ = true |- _ =>
           apply andb_prop in H as [H _]; apply N.eqb_eq in H; congruence
       end.
Qed.


Lemma pass_errors_after_token (filePath : string) (w : World) :
  calls is_ConsoleError (trace w) <=
  calls is_ConsoleError (trace (snd (uploadBarFile_pass config env filePath w))).
Proof.
  destruct (uploadBarFile_pass config env filePath w) as [r w'] eqn:Hpass.
  cbn [snd]. revert Hpass. destruct w as [tok expiry tr].
  unfold_pass; repeat case_step;
    (let H := fresh in intros H; inversion H; subst; clear H); tidy; count_calls;
    lazymatch goal with
    | H : generateToken _ _ _ = _ |- _ =>
        pose proof (generateToken_errors _ _ _ _ _ H) as Hce;
        world_fields_in Hce; revert Hce; count_calls; intros Hce; lia
    end.
Qed.

(** X5. When an upload call is made: a pass of [uploadBarFile] issues one
    upload call if its token step returned a token and the file could be
    opened and measured, and none otherwise; when the token step fails the
    file is not touched at all. *)
Theorem upload_call_needs_token_and_file (filePath : string) (w : World) :
  let w' := snd (uploadBarFile_pass config env filePath w) in
  let authenticated := returned (pass_token config env filePath w) in
  let readable :=
    resolved (env_createReadStream env (calls is_CreateReadStream (trace w)) filePath)
    && resolved (env_statSync env (calls is_StatSync (trace w)) filePath) in
  calls is_FetchUpload (trace w') =
    (if authenticated && readable then 1 else 0) + calls is_FetchUpload (trace w) /\
  (authenticated = false ->
   calls is_CreateReadStream (trace w') = calls is_CreateReadStream (trace w) /\
   calls is_StatSync (trace w') = calls is_StatSync (trace w)).
Proof.
  cbv zeta. unfold pass_token. cbv [console_log emit bind].
  destruct (uploadBarFile_pass config env filePath w) as [r w'] eqn:Hpass.
  cbn [snd]. revert Hpass. destruct w as [tok expiry tr].
  cbn [cachedToken tokenExpiry trace].
  pass_paths;
    lazymatch goal with
    | H : generateToken _ _ _ = _ |- _ =>
        destruct (generateToken_history _ _ _ _ _ H)
          as (Hsettles & _ & Hfu & Hcrs & Hss & _)
    end; tidy; count_calls;
    rewrite ?Hcrs, ?Hss, ?Hfu in *; cbn [returned fst andb];
    try congruence;
    repeat match goal with
           | H : ?x = _, H' : context [resolved ?x] |- _ =>
               rewrite H in H'; cbn [resolved returned andb] in H'
           end;
    try discriminate;
    (split; [reflexivity | first [discriminate | intros _; split; reflexivity]]).
Qed.

(** X6. Failures other than a 401 are final: when the upload call is
    answered by anything but a 401 (another status, or a transport error),
    the operation returns after that one upload call, whatever number of
    passes it is allowed; it does not clear the cache, and the token stays
    cached for the next upload. *)
Theorem other_failures_are_final (filePath : string) (w : World)
        (token : JsValue) (size : N) (passes : nat) :
  pass_token config env filePath w = Returns token ->
  env_createReadStream env (calls is_CreateReadStream (trace w)) filePath = Resolved tt ->
  env_statSync env (calls is_StatSync (trace w)) filePath = Resolved size ->
  not_401 (env_upload env (calls is_FetchUpload (trace w))
             (upload_request config (basename filePath) filePath token size)) ->
  exists w',
    uploadBarFile config env (S passes) filePath w = (Returns tt, w') /\
    calls is_FetchUpload (trace w') = S (calls is_FetchUpload (trace w)) /\
    calls is_Cleared (trace w') = calls is_Cleared (trace w) /\
    cachedToken w' = token.
Proof.
  intros Htoken Hstream Hstat Hnot.
  destruct (pass_not_401 filePath w token size Htoken Hstream Hstat Hnot)
    as (w' & Hpass & Htok & Hcl & Hfu).
  exists w'. cbn [uploadBarFile]. unfold bind. rewrite Hpass. auto.
Qed.

(** X7. Every failure is reported: a pass of [uploadBarFile] writes no error
    line exactly when it ends by reporting the accepted upload and its
    response body; every other way through the pass writes at least one. *)
Theorem pass_reports_every_failure (filePath : string) (w : World) :
  let w' := snd (uploadBarFile_pass config env filePath w) in
  calls is_ConsoleError (trace w') = calls is_ConsoleError (trace w) <->
  exists result rest,
    trace w' =
      ConsoleLog [Text "   Response:"; JsonText result]
      :: ConsoleLog [Text ("✅ Successfully uploaded " +:+ basename filePath)]
      :: rest.
Proof.
  cbv zeta.
  destruct (uploadBarFile_pass config env filePath w) as [r w'] eqn:Hpass.
  cbn [snd]. revert Hpass. destruct w as [tok expiry tr].
  unfold_pass; repeat case_step;
    (let H := fresh in intros H; inversion H; subst; clear H); tidy; count_calls;
    lazymatch goal with
    | H : generateToken _ _ _ = _ |- _ =>
        pose proof (generateToken_errors _ _ _ _ _ H) as Hce;
        world_fields_in Hce; revert Hce; count_calls; intros Hce
    end;
    try (exfalso;
         lazymatch goal with
         | H : generateToken _ _ _ = (Unfinished, _) |- _ =>
             destruct (generateToken_history _ _ _ _ _ H) as (Hne & _); congruence
         end);
    (split;
     [ intros Hsame; first [ lia | do 2 eexists; reflexivity ]
     | intros (result & rest & Hhead); first [ discriminate Hhead | lia ] ]).
Qed.

(** X8. Uploads share the token: after an upload whose call was not
    answered 401, a second upload that starts while the clock read is before
    the stored expiry sends the same token and its pass issues no token
    request. *)
Theorem uploads_share_token (first second : string) (w : World)
        (token : JsValue) (size e : N) :
  pass_token config env first w = Returns token ->
  truthy token = true ->
  env_createReadStream env (calls is_CreateReadStream (trace w)) first = Resolved tt ->
  env_statSync env (calls is_StatSync (trace w)) first = Resolved size ->
  not_401 (env_upload env (calls is_FetchUpload (trace w))
             (upload_request config (basename first) first token size)) ->
  let w1 := snd (uploadBarFile_pass config env first w) in
  tokenExpiry w1 = Some e ->
  (env_now env (calls is_DateNow (trace w1)) < e)%N ->
  pass_token config env second w1 = Returns token /\
  calls is_FetchToken (trace (snd (uploadBarFile_pass config env second w1))) =
    calls is_FetchToken (trace w1).
Proof.
  intros Htoken Htruthy Hstream Hstat Hnot. cbv zeta.
  destruct (pass_not_401 first w token size Htoken Hstream Hstat Hnot)
    as (w1 & Hpass & Htok & _ & _).
  rewrite Hpass. cbn [snd]. intros Hexp Hlt.
  assert (Hfresh : cache_fresh env w1 = true).
  { apply (cache_fresh_window env w1 e); [rewrite Htok; exact Htruthy | exact Hexp | exact Hlt]. }
  split.
  - unfold pass_token. cbv [bind].
    destruct (console_log [Text ("📤 Uploading " +:+ basename second +:+ "...")] w1)
      as [c w0] eqn:Hlog.
    assert (Hw0 : w0 = snd (console_log
                              [Text ("📤 Uploading " +:+ basename second +:+ "...")] w1))
      by (rewrite Hlog; reflexivity).
    assert (c = Returns tt) as -> by (cbv in Hlog; congruence).
    destruct (generateToken config env w0) as [r2 w2] eqn:Hrun.
    destruct (generateToken_cache _ _ _ _ _ Hrun) as (_ & _ & Hhit & _).
    rewrite Hw0, cache_fresh_logged in Hhit.
    destruct (Hhit Hfresh) as (-> & _). cbn [fst]. rewrite <- Htok. reflexivity.
  - rewrite pass_token_calls, Hfresh. reflexivity.
Qed.

(** X9. A 401 is retried only while a token is cached: when the token step
    returned a value that is not truthy (the token endpoint sent no
    [access_token]), a 401 ends the operation after one upload call, which
    carried [Bearer] followed by that value, and the cache is not cleared. *)
Theorem unauthorized_without_token_is_final (filePath : string) (w : World)
        (token : JsValue) (size : N) (resp : Response) (body : string)
        (passes : nat) :
  pass_token config env filePath w = Returns token ->
  truthy token = false ->
  env_createReadStream env (calls is_CreateReadStream (trace w)) filePath = Resolved tt ->
  env_statSync env (calls is_StatSync (trace w)) filePath = Resolved size ->
  env_upload env (calls is_FetchUpload (trace w))
    (upload_request config (basename filePath) filePath token size) = Resolved resp ->
  status resp = 401%N ->
  text resp = Resolved body ->
  exists w' new,
    uploadBarFile config env (S passes) filePath w = (Returns tt, w') /\
    trace w' = new ++ trace w /\
    List.filter is_FetchUpload new =
      [FetchUpload (upload_request config (basename filePath) filePath token size)] /\
    In ("authorization", "Bearer " +:+ to_string token)
       (req_headers (upload_request config (basename filePath) filePath token size)) /\
    calls is_Cleared (trace w') = calls is_Cleared (trace w).
Proof.
  intros Htoken Hfalsy Hstream Hstat Hanswer H401 Hbody.
  pose proof (status_401_not_ok _ H401) as Hok.
  assert (Hpass : exists w' new,
             uploadBarFile_pass config env filePath w = (Returns false, w') /\
             trace w' = new ++ trace w /\
             List.filter is_FetchUpload new =
               [FetchUpload (upload_request config (basename filePath) filePath token size)] /\
             calls is_Cleared (trace w') = calls is_Cleared (trace w)).
  { run_to_upload w Htoken Hstream Hstat.
    cbn [trace] in Hanswer. rewrite Hanswer; cbv beta iota zeta.
    rewrite Hok, Hbody; cbv beta iota zeta. rewrite H401, Hfalsy.
    cbn [N.eqb Pos.eqb andb].
    do 2 eexists. split; [reflexivity |]. tidy. count_calls.
    split; [rewrite Hnew1; solve_prefix; apply app_cons_prefix |].
    split; [| exact Hcl].
    cbn [List.filter is_FetchUpload app]. rewrite List.filter_app, Hnone. reflexivity. }
  destruct Hpass as (w' & new & Hpass & Htrace & Hone & Hcl).
  exists w', new. cbn [uploadBarFile]. unfold bind. rewrite Hpass.
  split_and!; try done. cbn. auto.
Qed.

(** X17. A file that is gone when its upload starts: when
    [fs.createReadStream] has returned its stream and [fs.statSync] throws,
    the call of [uploadBarFile] settles, whatever number of passes it is
    allowed, after writing the error (and its stack, if it has one) to the
    error stream, and no upload call is made.  The stream the call opened is
    handed to no request: the call ends in the handler before the form is
    built, and the handler does nothing about the stream.  What the stream
    does to the process afterwards is not in the hands of this call. *)
Theorem unmeasured_file_strands_stream (filePath : string) (w : World)
        (token : JsValue) (e : JsError) (passes : nat) :
  pass_token config env filePath w = Returns token ->
  env_createReadStream env (calls is_CreateReadStream (trace w)) filePath = Resolved tt ->
  env_statSync env (calls is_StatSync (trace w)) filePath = Rejected e ->
  exists w' rest,
    uploadBarFile config env (S passes) filePath w = (Returns tt, w') /\
    calls is_CreateReadStream (trace w') = S (calls is_CreateReadStream (trace w)) /\
    calls is_FetchUpload (trace w') = calls is_FetchUpload (trace w) /\
    trace w' =
      (if String.eqb (stack e) "" then [] else [ConsoleError [Text (stack e)]])
      ++ ConsoleError [Text ("❌ Error uploading " +:+ basename filePath +:+ ":");
                       Text (message e)]
      :: rest.
Proof.
  intros Htoken Hstream Hstat. cbn [uploadBarFile]. unfold bind at 1.
  destruct w as [tok expiry tr].
  unfold pass_token in Htoken.
  cbv [console_log emit bind cachedToken tokenExpiry trace] in Htoken.
  cbn [trace] in Hstream, Hstat.
  unfold_pass.
  lazymatch type of Htoken with
  | fst ?run = _ =>
      destruct run as [r1 [tok1 expiry1 tr1]] eqn:Hrun;
      cbn [fst] in Htoken; subst r1;
      destruct (generateToken_history _ _ _ _ _ Hrun)
        as (_ & _ & Hfu & Hcrs & Hss & _ & _)
  end.
  tidy. rewrite Hcrs, Hstream; cbv beta iota zeta; count_calls.
  rewrite Hss, Hstat; cbv beta iota zeta; count_calls.
  destruct (String.eqb (stack e) ""); cbn [negb];
    do 2 eexists; (split; [reflexivity |]); tidy; count_calls;
    rewrite Hcrs, Hfu; split_and!; reflexivity.
Qed.

End UploadMore.

Lemma expired_token_is_replaced_witness :
  let run := generateToken example_config stale_env stale_world in
  calls is_FetchToken (trace (snd run)) = 2 /\
  (forall tok, fst run = Returns tok ->
     cachedToken (snd run) = tok /\
     tokenExpiry (snd run) =
       Some (env_now stale_env (Nat.pred (calls is_DateNow (trace (snd run))))
             + 50 * 60 * 1000)%N).
Proof.
  apply (expired_token_is_replaced example_config stale_env stale_world 3000000%N).
  - reflexivity.
  - vm_compute. discriminate.
Defined.

Lemma token_without_value_is_not_reused_witness :
  exists w',
    generateToken example_config env_token_empty initial_world
      = (Returns JsUndefined, w') /\
    cachedToken w' = JsUndefined /\
    (exists t, tokenExpiry w' = Some (t + token_ttl)%N) /\
    calls is_FetchToken
      (trace (snd (generateToken example_config env_token_empty w'))) = 2.
Proof.
  apply (token_without_value_is_not_reused example_config env_token_empty
           initial_world
           {| status := 200; statusText := "OK"; text := Resolved "{}";
              json := Resolved (JsObject []) |}
           (JsObject []) JsUndefined); reflexivity.
Defined.

Lemma other_failures_are_final_witness :
  exists w',
    uploadBarFile example_config (example_env 1000 (fun _ => 500%N)) 1
      "/watch/order-flow.bar" initial_world = (Returns tt, w') /\
    calls is_FetchUpload (trace w') = 1 /\
    calls is_Cleared (trace w') = 0 /\
    cachedToken w' = JsString "tok-A".
Proof.
  apply (other_failures_are_final example_config (example_env 1000 (fun _ => 500%N))
           "/watch/order-flow.bar" initial_world (JsString "tok-A") 1024%N 0);
    try reflexivity.
  cbn. discriminate.
Defined.

Lemma uploads_share_token_witness :
  let env := example_env 1000 (fun _ => 500%N) in
  let w1 := snd (uploadBarFile_pass example_config env "/watch/a.bar" initial_world) in
  pass_token example_config env "/watch/b.bar" w1 = Returns (JsString "tok-A") /\
  calls is_FetchToken
    (trace (snd (uploadBarFile_pass example_config env "/watch/b.bar" w1))) =
    calls is_FetchToken (trace w1).
Proof.
  apply (uploads_share_token example_config (example_env 1000 (fun _ => 500%N))
           "/watch/a.bar" "/watch/b.bar" initial_world (JsString "tok-A")
           1024%N 3000000%N);
    try reflexivity.
  cbn. discriminate.
Defined.

Lemma unauthorized_without_token_is_final_witness :
  exists w' new,
    uploadBarFile example_config env_token_empty 1 "/watch/order-flow.bar"
      initial_world = (Returns tt, w') /\
    trace w' = new ++ trace initial_world /\
    List.filter is_FetchUpload new =
      [FetchUpload (upload_request example_config "order-flow.bar"
                      "/watch/order-flow.bar" JsUndefined 1024)] /\
    In ("authorization", "Bearer undefined")
       (req_headers (upload_request example_config "order-flow.bar"
                       "/watch/order-flow.bar" JsUndefined 1024)) /\
    calls is_Cleared (trace w') = calls is_Cleared (trace initial_world).
Proof.
  apply (unauthorized_without_token_is_final example_config env_token_empty
           "/watch/order-flow.bar" initial_world JsUndefined 1024%N
           (answer 401 "Unauthorized") "diagnostic" 0); reflexivity.
Defined.

Lemma unmeasured_file_strands_stream_witness :
  exists w' rest,
    uploadBarFile example_config env_file_missing 1 "/watch/order-flow.bar"
      initial_world = (Returns tt, w') /\
    calls is_CreateReadStream (trace w') = 1 /\
    calls is_FetchUpload (trace w') = 0 /\
    trace w' =
      [ ConsoleError [Text "Error: ENOENT: no such file or directory"];
        ConsoleError [Text "❌ Error uploading order-flow.bar:";
                      Text "ENOENT: no such file or directory"] ]
      ++ rest.
Proof.
  apply (unmeasured_file_strands_stream example_config env_file_missing
           "/watch/order-flow.bar" initial_world (JsString "tok-A")
           (new_Error "ENOENT: no such file or directory") 0); reflexivity.
Defined.

(** ** More on the debouncer *)

Section DebounceMore.

Variable config : Config.

(** Without a timer armed for [p] and without a change of [p], nothing
    starts for [p]. *)
Lemma no_change_no_upload (p : string) (evs : list LoopEvent) (st : Loop) :
  loop_wf st ->
  timers_of p (pending st) = [] ->
  Forall (fun ev => ev <> FileChanged p) evs ->
  starts_of p (started (run config st evs)) = starts_of p (started st) /\
  timers_of p (pending (run config st evs)) = [].
Proof.
  intros Hwf. revert st Hwf. induction evs as [|ev evs IH]; intros st Hwf Hnone Hevs.
  - split; [reflexivity | exact Hnone].
  - apply Forall_cons in Hevs as [Hev Hevs]. rewrite run_cons.
    pose proof (step_wf config st ev Hwf) as Hwf1.
    assert (Hstep : starts_of p (started (step config st ev)) = starts_of p (started st) /\
                    timers_of p (pending (step config st ev)) = []).
    { destruct (exit_status st) as [code|] eqn:Halive.
      - rewrite step_dead by congruence. auto.
      - destruct ev as [q | dt | q | | | q].
        + assert (Hq : leaves_alone p (FileChanged q) = true).
          { cbn. apply negb_true_iff, String.eqb_neq. congruence. }
          destruct (quiet_step config p (FileChanged q) st Hwf Halive Hq)
            as (_ & _ & Hs & Ht). rewrite Hs, Ht. auto.
        + destruct (quiet_step config p (Elapse dt) st Hwf Halive eq_refl)
            as (_ & _ & Hs & Ht). rewrite Hs, Ht, Hnone. auto.
        + destruct (quiet_step config p (UploadSettled q) st Hwf Halive eq_refl)
            as (_ & _ & Hs & Ht). rewrite Hs, Ht. auto.
        + unfold step. rewrite Halive. cbn. auto.
        + unfold step. rewrite Halive. cbn. auto.
        + unfold step, on_stream_error. rewrite Halive.
          destruct (bool_decide _); cbn; auto. }
    destruct Hstep as [Hs Ht].
    destruct (IH (step config st ev) Hwf1 Ht Hevs) as [Hs' Ht'].
    split; [congruence | exact Ht'].
Qed.

(** X10. A path that has no timer armed is not uploaded until it changes:
    whatever else happens (changes of other paths, time, uploads settling,
    signals, a stream failing unheard), no upload of [p] starts. *)
Theorem unchanged_path_is_not_uploaded (p : string) (evs : list LoopEvent)
        (st : Loop) :
  loop_reachable config st ->
  timers_of p (pending st) = [] ->
  Forall (fun ev => ev <> FileChanged p) evs ->
  starts_of p (started (run config st evs)) = starts_of p (started st) /\
  timers_of p (pending (run config st evs)) = [].
Proof.
  intros Hreach. apply no_change_no_upload, (loop_reachable_wf config), Hreach.
Qed.

(** A timer of [p] that comes due during a stretch of events that leave
    [p] alone fires in it, and starts the one upload. *)
Lemma quiet_run_fires (p : string) (evs : list LoopEvent) :
  forall (st : Loop) (tm : Timer),
    loop_wf st -> exit_status st = None -> quiet p evs ->
    timers_of p (pending st) = [tm] ->
    (clock st < timer_due tm)%N ->
    (timer_due tm <= clock st + elapsed evs)%N ->
    timers_of p (pending (run config st evs)) = [] /\
    starts_of p (started (run config st evs)) = start_of tm :: starts_of p (started st).
Proof.
  induction evs as [|ev evs IH]; intros st tm Hwf Halive Hquiet Htm Hlater Hdue.
  - cbn [elapsed] in Hdue. lia.
  - apply Forall_cons in Hquiet as [Hev Hquiet]. rewrite run_cons.
    destruct (quiet_step config p ev st Hwf Halive Hev) as (Halive1 & Hclock1 & Hstep).
    pose proof (step_wf config st ev Hwf) as Hwf1.
    set (st1 := step config st ev) in *.
    assert (Hsame : timers_of p (pending st1) = [tm] ->
                    starts_of p (started st1) = starts_of p (started st) ->
                    (clock st1 + elapsed evs = clock st + elapsed (ev :: evs))%N ->
                    (clock st1 < timer_due tm)%N ->
                    timers_of p (pending (run config st1 evs)) = [] /\
                    starts_of p (started (run config st1 evs)) =
                      start_of tm :: starts_of p (started st)).
    { intros Ht1 Hs1 Hclock Hlater1.
      destruct (IH st1 tm Hwf1 Halive1 Hquiet Ht1 Hlater1 ltac:(lia)) as [Ht' Hs'].
      split; [exact Ht' | rewrite Hs', Hs1; reflexivity]. }
    destruct ev as [q | dt | q | | | q]; try discriminate;
      rewrite Htm in Hstep; destruct Hstep as [Hs Ht]; cbn [elapsed] in *;
      try (apply Hsame; [done | done | lia | lia]).
    destruct (decide (timer_due tm <= clock st + dt)%N) as [Hnow | Hnot].
    + rewrite filter_cons_True in Hs by exact Hnow.
      rewrite filter_cons_False in Ht by lia.
      rewrite filter_nil in Hs, Ht.
      destruct (quiet_run config p evs st1 Hwf1 Halive1 Hquiet)
        as (_ & _ & _ & Hnone & _).
      destruct (Hnone Ht) as [Ht' Hs'].
      split; [exact Ht' | rewrite Hs', Hs; reflexivity].
    + rewrite filter_cons_False in Hs by exact Hnot.
      rewrite filter_cons_True in Ht by lia.
      rewrite filter_nil in Hs, Ht.
      apply Hsame; [done | done | lia | lia].
Qed.

(** A change of [p] followed by a stretch of events that leave [p] alone
    and take the timer's delay or more starts one upload of [p], when the
    delay has passed. *)
Lemma change_then_quiet (p : string) (gap : list LoopEvent) (st : Loop) :
  loop_wf st ->
  exit_status st = None ->
  quiet p gap ->
  (timer_delay (debounceMs config) <= elapsed gap)%N ->
  let st' := run config st (FileChanged p :: gap) in
  starts_of p (started st') =
    {| start_time := clock st + timer_delay (debounceMs config); start_path := p;
       start_entry := false |} :: starts_of p (started st) /\
  timers_of p (pending st') = [] /\
  clock st' = (clock st + elapsed gap)%N /\
  exit_status st' = None /\
  loop_wf st'.
Proof.
  intros Hwf Halive Hquiet Hlong. cbv zeta.
  rewrite run_cons, step_change by exact Halive.
  destruct (handleFileChange_rearms config p st Hwf)
    as (Htimers & Hclock & Hstarted & _ & Hexit).
  pose proof (handleFileChange_wf config p st Hwf) as Hwf1.
  pose proof (timer_delay_pos (debounceMs config)) as Hpos.
  set (st1 := handleFileChange config p st) in *.
  assert (Halive1 : exit_status st1 = None) by congruence.
  destruct (quiet_run config p gap st1 Hwf1 Halive1 Hquiet)
    as (Hwf' & Halive' & Hclock' & _).
  destruct (quiet_run_fires p gap st1 _ Hwf1 Halive1 Hquiet Htimers
              ltac:(cbn [timer_due]; lia) ltac:(cbn [timer_due]; lia))
    as [Ht' Hs'].
  split_and!; [| exact Ht' | congruence | exact Halive' | exact Hwf'].
  rewrite Hs', Hstarted. reflexivity.
Qed.

(** X11. One upload per quiet period, for a debounce interval the host
    takes as it is and as long as the process lives: changes of [p] that are
    each followed by a stretch in which [p] does not change, no signal
    arrives, no stream fails unheard and the interval or more passes, start
    one upload each, at the time of the change plus the interval. *)
Theorem spaced_changes_upload_each (p : string) (gaps : list (list LoopEvent))
        (st : Loop) :
  valid_delay (debounceMs config) ->
  loop_reachable config st ->
  exit_status st = None ->
  Forall (long_gap p (debounceMs config)) gaps ->
  starts_of p (started (run config st (spaced p gaps))) =
    spaced_starts p (debounceMs config) (clock st) (elapsed <$> gaps)
    ++ starts_of p (started st) /\
  length (starts_of p (started (run config st (spaced p gaps)))) =
    length gaps + length (starts_of p (started st)).
Proof.
  intros Hvalid Hreach.
  pose proof (loop_reachable_wf config st Hreach) as Hwf. clear Hreach.
  pose proof (timer_delay_valid _ Hvalid) as Hdelay.
  intros Halive Hgaps.
  assert (Hmain : starts_of p (started (run config st (spaced p gaps))) =
                  spaced_starts p (debounceMs config) (clock st) (elapsed <$> gaps)
                  ++ starts_of p (started st)).
  { revert st Hwf Halive. induction gaps as [|gap gaps IH]; intros st Hwf Halive.
    - reflexivity.
    - apply Forall_cons in Hgaps as [[Hquiet Hlong] Hgaps].
      cbn [spaced spaced_starts fmap list_fmap].
      change (FileChanged p :: gap ++ spaced p gaps)
        with ((FileChanged p :: gap) ++ spaced p gaps).
      rewrite run_app.
      destruct (change_then_quiet p gap st Hwf Halive Hquiet ltac:(lia))
        as (Hstarts & _ & Hclock & Hexit & Hwf').
      rewrite (IH Hgaps _ Hwf' Hexit), Hstarts, Hclock, Hdelay, <- app_assoc.
      reflexivity. }
  split; [exact Hmain |].
  rewrite Hmain, length_app. f_equal.
  clear. generalize (clock st). induction gaps as [|gap gaps IH]; intros t.
  - reflexivity.
  - cbn [spaced_starts fmap list_fmap]. rewrite length_app, IH. cbn. lia.
Qed.

(** X18. A debounce interval the host does not take: with [DEBOUNCE_MS] at
    0 or above 2^31 - 1, which the program does not check, the host arms
    every timer with 1 millisecond, so a change is uploaded as soon as a
    millisecond has passed and changes further apart than that are not
    coalesced. *)
Theorem out_of_range_interval_is_one_ms (p : string) (gap : list LoopEvent)
        (st : Loop) :
  ~ valid_delay (debounceMs config) ->
  loop_reachable config st ->
  exit_status st = None ->
  long_gap p 1 gap ->
  timers_of p (pending (step config st (FileChanged p))) =
    [ {| timer_id := next_timer st; timer_due := (clock st + 1)%N;
         timer_path := p |} ] /\
  starts_of p (started (run config st (FileChanged p :: gap))) =
    {| start_time := clock st + 1; start_path := p; start_entry := false |}
    :: starts_of p (started st).
Proof.
  intros Hout Hreach Halive [Hquiet Hlong].
  pose proof (loop_reachable_wf config st Hreach) as Hwf.
  pose proof (timer_delay_clamped _ Hout) as Hdelay. split.
  - rewrite step_change by exact Halive.
    destruct (handleFileChange_rearms config p st Hwf) as (Htimers & _).
    rewrite Htimers, Hdelay. reflexivity.
  - destruct (change_then_quiet p gap st Hwf Halive Hquiet ltac:(lia)) as (Hstarts & _).
    rewrite Hstarts, Hdelay. reflexivity.
Qed.

Lemma fmap_filter_due (P : N -> Prop) `{!forall d, Decision (P d)} (ts : list Timer) :
  timer_due <$> filter (fun t => P (timer_due t)) ts = filter P (timer_due <$> ts).
Proof.
  induction ts as [|t ts IH]; [reflexivity |].
  rewrite fmap_cons, !filter_cons.
  destruct (decide (P (timer_due t))); [rewrite fmap_cons |]; congruence.
Qed.

(** The uploads that the timers of [p] start depend on their due times
    only. *)
Lemma starts_by_due (p : string) (x : N) (ts : list Timer) :
  start_of <$> filter (fun t => (timer_due t <= x)%N) (timers_of p ts) =
  (fun due => {| start_time := due; start_path := p; start_entry := false |})
    <$> filter (fun due => (due <= x)%N) (timer_due <$> timers_of p ts).
Proof.
  induction ts as [|t ts IH]; [reflexivity |].
  rewrite timers_of_cons. destruct (decide (timer_path t = p)) as [Hp | Hp]; [| exact IH].
  rewrite fmap_cons, !filter_cons. cbn beta.
  destruct (decide (timer_due t <= x)%N); [| exact IH].
  rewrite !fmap_cons, IH. unfold start_of at 1. rewrite Hp. reflexivity.
Qed.

(** One step, seen from [p], depends only on what the state shows of [p],
    unless it is a stream that fails unheard: that one ends the process when
    an upload of its path, any path, has been started. *)
Lemma step_path_view (p : string) (ev : LoopEvent) (st1 st2 : Loop) :
  loop_wf st1 -> loop_wf st2 ->
  (forall r, ev <> StreamError r) ->
  path_view p st1 = path_view p st2 ->
  path_view p (step config st1 ev) = path_view p (step config st2 ev).
Proof.
  intros Hwf1 Hwf2 Hheard Hview. pose proof Hview as Hsame.
  unfold path_view in Hsame. injection Hsame as Hclock Hdue Hstarts Hexit.
  destruct (exit_status st1) as [code|] eqn:Halive1.
  { rewrite !step_dead by congruence. exact Hview. }
  assert (Halive2 : exit_status st2 = None) by congruence.
  destruct ev as [q | dt | q | | | q]; [| | | | | exfalso; exact (Hheard q eq_refl)].
  - rewrite !step_change by assumption. unfold path_view.
    destruct (handleFileChange_rearms config q st1 Hwf1) as (Ht1 & Hc1 & Hs1 & _ & He1).
    destruct (handleFileChange_rearms config q st2 Hwf2) as (Ht2 & Hc2 & Hs2 & _ & He2).
    rewrite Hc1, Hc2, Hs1, Hs2, He1, He2.
    destruct (decide (p = q)) as [<- | Hne].
    + rewrite Ht1, Ht2. cbn. congruence.
    + rewrite !(handleFileChange_others config p q) by assumption. congruence.
  - rewrite !step_elapse by assumption. unfold path_view.
    destruct (elapse_starts p dt st1 Hwf1) as (Hs1 & Ht1 & Hc1 & He1).
    destruct (elapse_starts p dt st2 Hwf2) as (Hs2 & Ht2 & Hc2 & He2).
    rewrite Hs1, Hs2, Ht1, Ht2, Hc1, Hc2, He1, He2.
    rewrite !starts_by_due.
    rewrite !(fmap_filter_due (fun due => (_ < due)%N)).
    rewrite Hclock, Hdue, Hstarts, Halive1, Halive2. reflexivity.
  - unfold step. rewrite Halive1, Halive2. exact Hview.
  - unfold step. rewrite Halive1, Halive2. unfold path_view, on_SIGINT.
    cbn [clock pending started exit_status]. rewrite Hclock, Hdue, Hstarts.
    reflexivity.
  - unfold step. rewrite Halive1, Halive2. unfold path_view, on_SIGTERM.
    cbn [clock pending started exit_status]. rewrite Hclock, Hdue, Hstarts.
    reflexivity.
Qed.

Lemma run_path_view (p : string) (evs : list LoopEvent) :
  forall st1 st2 : Loop,
    loop_wf st1 -> loop_wf st2 ->
    Forall (fun ev => forall r, ev <> StreamError r) evs ->
    path_view p st1 = path_view p st2 ->
    path_view p (run config st1 evs) = path_view p (run config st2 evs).
Proof.
  induction evs as [|ev evs IH]; intros st1 st2 Hwf1 Hwf2 Hheard Hview;
    [exact Hview |].
  apply Forall_cons in Hheard as [Hev Hheard]. rewrite !run_cons.
  apply IH; [apply step_wf, Hwf1 | apply step_wf, Hwf2 | exact Hheard |].
  apply step_path_view; assumption.
Qed.

(** X12. Debouncing is per path, as long as no upload ends the process: a
    change of another path [q], wherever it falls among the events, alters
    nothing of what happens to [p], provided no stream fails unheard after
    it: the uploads of [p], the times they start at, and the timers armed
    for [p] are the same with and without it. *)
Theorem other_path_does_not_interfere (p q : string) (before after : list LoopEvent)
        (st : Loop) :
  loop_reachable config st ->
  q <> p ->
  Forall (fun ev => forall r, ev <> StreamError r) after ->
  starts_of p (started (run config st (before ++ FileChanged q :: after))) =
    starts_of p (started (run config st (before ++ after))) /\
  timer_due <$> timers_of p (pending (run config st (before ++ FileChanged q :: after))) =
    timer_due <$> timers_of p (pending (run config st (before ++ after))).
Proof.
  intros Hreach Hne Hheard.
  pose proof (loop_reachable_wf config st Hreach) as Hwf.
  assert (Hview : path_view p (run config st (before ++ FileChanged q :: after)) =
                  path_view p (run config st (before ++ after))).
  { rewrite !run_app, run_cons.
    pose proof (run_wf config before st Hwf) as Hwf1.
    set (st1 := run config st before) in *.
    apply run_path_view; [apply step_wf, Hwf1 | exact Hwf1 | exact Hheard |].
    destruct (exit_status st1) as [code|] eqn:Halive.
    - rewrite step_dead by congruence. reflexivity.
    - rewrite step_change by exact Halive. unfold path_view.
      destruct (handleFileChange_rearms config q st1 Hwf1) as (_ & Hc & Hs & _ & He).
      rewrite Hc, Hs, He, (handleFileChange_others config p q) by auto.
      reflexivity. }
  unfold path_view in Hview. injection Hview as _ Hdue Hstarts _. auto.
Qed.

End DebounceMore.

(** [path.extname] on the paths of its documentation and on the corner
    cases of its definition. *)
Example extname_examples :
  extname "index.html" = ".html" /\ extname "index.coffee.md" = ".md" /\
  extname "index." = "." /\ extname "index" = "" /\
  extname ".index" = "" /\ extname ".index.md" = ".md" /\
  extname "/watch/order-flow.bar" = ".bar" /\ extname "/watch/a.bar/" = ".bar" /\
  extname "/watch.d/flow" = "" /\ extname ".." = "" /\ extname "..." = "." /\
  extname "" = "".
Proof. repeat split. Qed.

(** ** The watcher's handlers *)

Lemma string_app_cons (x : ascii) (a b : string) :
  String x a +:+ b = String x (a +:+ b).
Proof. reflexivity. Qed.

Lemma string_app_nil_r (a : string) : a +:+ "" = a.
Proof. induction a as [|x a IH]; [reflexivity | rewrite string_app_cons, IH; reflexivity]. Qed.

Lemma string_app_assoc (a b c : string) : (a +:+ b) +:+ c = a +:+ (b +:+ c).
Proof.
  induction a as [|x a IH]; [reflexivity | rewrite !string_app_cons, IH; reflexivity].
Qed.

Lemma string_of_list_ascii_app (a b : list ascii) :
  string_of_list_ascii (a ++ b) = string_of_list_ascii a +:+ string_of_list_ascii b.
Proof.
  induction a as [|c a IH]; [reflexivity |].
  cbn [app string_of_list_ascii]. rewrite string_app_cons, IH. reflexivity.
Qed.

Lemma until_dot_spec (cs ext stem : list ascii) :
  until_dot cs = Some (ext, stem) -> cs = ext ++ "."%char :: stem.
Proof.
  revert ext stem. induction cs as [|c cs IH]; intros ext stem; cbn; [discriminate |].
  destruct (is_dot c) eqn:Hc.
  - intros [= <- <-]. apply Ascii.eqb_eq in Hc. subst c. reflexivity.
  - destruct (until_dot cs) as [[ext' stem']|]; [| discriminate].
    intros [= <- <-]. rewrite (IH ext' stem' eq_refl). reflexivity.
Qed.

(** [path.extname] gives the empty string or a string that starts with a
    dot. *)
Lemma extname_dot (p : string) :
  extname p = "" \/ exists rest, extname p = String "."%char rest.
Proof.
  unfold extname. destruct (until_dot (rev_basename p)) as [[ext stem]|]; [| auto].
  assert (Hlong : string_of_list_ascii (rev (ext ++ ["."%char]))
                  = String "."%char (string_of_list_ascii (rev ext))).
  { rewrite rev_unit. reflexivity. }
  destruct stem as [|c stem]; [destruct ext; auto |].
  destruct ext as [|e ext].
  - destruct stem; [destruct (is_dot c) |]; eauto.
  - eauto.
Qed.

(** The base name is a stem followed by the extension. *)
Lemma basename_extname (p : string) :
  exists stem, basename p = stem +:+ extname p /\ (extname p <> "" -> stem <> "").
Proof.
  unfold basename, extname. fold (rev_basename p).
  destruct (until_dot (rev_basename p)) as [[ext stem]|] eqn:Hdot.
  2:{ eexists. split; [symmetry; apply string_app_nil_r | congruence]. }
  apply until_dot_spec in Hdot. rewrite Hdot.
  assert (Hlong : string_of_list_ascii (rev (ext ++ "."%char :: stem))
                  = string_of_list_ascii (rev stem)
                    +:+ string_of_list_ascii (rev (ext ++ ["."%char]))).
  { rewrite <- string_of_list_ascii_app, <- rev_app_distr, <- app_assoc. reflexivity. }
  assert (Hstem : forall c cs, string_of_list_ascii (rev (c :: cs)) <> "").
  { intros c cs H. apply (f_equal list_ascii_of_string) in H.
    rewrite list_ascii_of_string_of_list_ascii in H. cbn in H.
    destruct (rev cs); discriminate. }
  destruct stem as [|c stem].
  { destruct ext; (eexists; split; [symmetry; apply string_app_nil_r | congruence]). }
  destruct ext as [|e ext].
  - destruct stem as [|d stem].
    + destruct (is_dot c).
      * eexists. split; [symmetry; apply string_app_nil_r | congruence].
      * exists (String c ""). split; [reflexivity | discriminate].
    + eexists. split; [exact Hlong | intros _; apply Hstem].
  - eexists. split; [exact Hlong | intros _; apply Hstem].
Qed.

(** ** The watcher's filter *)

Section Watcher.

Variable config : Config.

(** The process is the debouncer fed with the events that pass the filter. *)
Lemma process_step_seen (st : Loop) (pev : ProcessEvent) :
  process_step config st pev = run config st (seen_by_debouncer config pev).
Proof.
  unfold process_step. destruct (exit_status st) as [code|] eqn:Halive.
  { rewrite run_dead by congruence. reflexivity. }
  destruct pev as [[q | q | e |] | dt | q | | | q];
    cbn [seen_by_debouncer on_watcher_event];
    try destruct (String.eqb (extname q) (fileExtension config));
    cbn [run fold_left]; unfold step; rewrite ?Halive; reflexivity.
Qed.

Lemma process_run_seen (pevs : list ProcessEvent) :
  forall st, process_run config st pevs = run config st (seen config pevs).
Proof.
  unfold seen.
  induction pevs as [|pev pevs IH]; intros st; [reflexivity |].
  cbn [fmap list_fmap concat]. rewrite run_app, <- process_step_seen. apply IH.
Qed.

Lemma initializeWatcher_wf (directory_exists : bool) :
  loop_wf (initializeWatcher directory_exists).
Proof.
  destruct directory_exists; [apply initial_loop_wf |].
  constructor; cbn; try constructor.
  - intros t Ht. inv Ht.
  - intros p id Hp. rewrite lookup_empty in Hp. discriminate.
Qed.

(** A path whose extension is not the configured one gets no timer and no
    upload. *)
Lemma unforwarded_path_is_idle (directory_exists : bool) (pevs : list ProcessEvent)
      (p : string) :
  extname p <> fileExtension config ->
  starts_of p (started (process_run config (initializeWatcher directory_exists) pevs)) = [] /\
  timers_of p (pending (process_run config (initializeWatcher directory_exists) pevs)) = [].
Proof.
  intros Hext. rewrite process_run_seen.
  assert (Hstart : starts_of p (started (initializeWatcher directory_exists)) = [] /\
                   timers_of p (pending (initializeWatcher directory_exists)) = []).
  { destruct directory_exists; split; reflexivity. }
  destruct Hstart as [Hs Ht].
  enough (Hquiet : Forall (fun ev => ev <> FileChanged p) (seen config pevs)).
  { destruct (no_change_no_upload config p _ _
                (initializeWatcher_wf directory_exists) Ht Hquiet) as [Hs' Ht'].
    rewrite Hs', Hs. auto. }
  clear Hs Ht. unfold seen. induction pevs as [|pev pevs IH]; [constructor |].
  cbn [fmap list_fmap concat]. apply Forall_app. split; [| exact IH].
  destruct pev as [[q | q | e |] | dt | q | | | q]; cbn [seen_by_debouncer];
    try (destruct (String.eqb (extname q) (fileExtension config)) eqn:Hq);
    repeat constructor; try discriminate;
    intros [= ->]; apply String.eqb_eq in Hq; contradiction.
Qed.

(** X13. The extension filter: whatever the watcher reports, every upload
    the process starts and every timer it arms is for a path whose
    [path.extname] is the configured extension. *)
Theorem only_configured_extension_is_uploaded (directory_exists : bool)
        (pevs : list ProcessEvent) :
  let st := process_run config (initializeWatcher directory_exists) pevs in
  Forall (fun s => extname (start_path s) = fileExtension config) (started st) /\
  Forall (fun t => extname (timer_path t) = fileExtension config) (pending st).
Proof.
  cbv zeta. split; apply Forall_forall.
  - intros s Hs.
    destruct (decide (extname (start_path s) = fileExtension config)) as [|Hext]; [assumption |].
    destruct (unforwarded_path_is_idle directory_exists pevs (start_path s) Hext) as [Hnone _].
    assert (Hin : s ∈ starts_of (start_path s)
                    (started (process_run config (initializeWatcher directory_exists) pevs))).
    { apply list_elem_of_filter. auto. }
    rewrite Hnone in Hin. inv Hin.
  - intros t Ht.
    destruct (decide (extname (timer_path t) = fileExtension config)) as [|Hext]; [assumption |].
    destruct (unforwarded_path_is_idle directory_exists pevs (timer_path t) Hext) as [_ Hnone].
    assert (Hin : t ∈ timers_of (timer_path t)
                    (pending (process_run config (initializeWatcher directory_exists) pevs))).
    { apply list_elem_of_filter. auto. }
    rewrite Hnone in Hin. inv Hin.
Qed.

(** X14. A configured extension that does not start with a dot (as in
    [FILE_EXTENSION=bar]) matches no file: [path.extname] gives the empty
    string or a string with a leading dot, so the process never arms a timer
    and never uploads. *)
Theorem extension_without_dot_matches_nothing (directory_exists : bool)
        (pevs : list ProcessEvent) (c : ascii) (rest : string) :
  fileExtension config = String c rest ->
  c <> "."%char ->
  started (process_run config (initializeWatcher directory_exists) pevs) = [] /\
  pending (process_run config (initializeWatcher directory_exists) pevs) = [].
Proof.
  intros Hcfg Hc.
  assert (Hext : forall p, extname p <> fileExtension config).
  { intros p Hp. rewrite Hcfg in Hp.
    destruct (extname_dot p) as [H | [r H]]; rewrite H in Hp; [discriminate |].
    injection Hp as Hp _. auto. }
  split.
  - destruct (started _) as [|s ss] eqn:Hstarted; [reflexivity |].
    destruct (unforwarded_path_is_idle directory_exists pevs (start_path s) (Hext _))
      as [Hnone _].
    rewrite Hstarted in Hnone. unfold starts_of in Hnone.
    rewrite filter_cons_True in Hnone by reflexivity. discriminate.
  - destruct (pending _) as [|t ts] eqn:Hpending; [reflexivity |].
    destruct (unforwarded_path_is_idle directory_exists pevs (timer_path t) (Hext _))
      as [_ Hnone].
    rewrite Hpending in Hnone. unfold timers_of in Hnone.
    rewrite filter_cons_True in Hnone by reflexivity. discriminate.
Qed.

(** X15. Where a forwarded file goes: a path that passes the watcher's
    filter has a base name that ends with the configured extension, and
    [uploadBarFile] appends [.bar] to that base name; the request of
    [/watch/flow.bar] goes to [.../bar-files/flow.bar.bar]. *)
Theorem forwarded_file_url (filePath : string) (token : JsValue) (size : N) :
  extname filePath = fileExtension config ->
  exists stem,
    basename filePath = stem +:+ fileExtension config /\
    (fileExtension config <> "" -> stem <> "") /\
    req_url (upload_request config (basename filePath) filePath token size) =
      apiBaseUrl config +:+ "/api/v1/bar-files/" +:+ stem
      +:+ fileExtension config +:+ ".bar".
Proof.
  intros Hext. destruct (basename_extname filePath) as (stem & Hbase & Hstem).
  rewrite Hext in Hbase, Hstem. exists stem. split_and!; [exact Hbase | exact Hstem |].
  cbn [upload_request req_url]. rewrite Hbase, string_app_assoc. reflexivity.
Qed.

(** X16. A matching file is uploaded, for a debounce interval the host
    takes as it is and as long as the process lives: when the process has
    not ended, the watcher reports a new or a modified file with the
    configured extension, and then the interval or more passes while the
    file is not reported again, no signal arrives and no stream fails
    unheard, one upload of that file starts, at the time of the report plus
    the interval. *)
Theorem matching_file_is_uploaded (pevs later : list ProcessEvent) (p : string)
        (modified : bool) :
  let st := process_run config (initializeWatcher true) pevs in
  let report := if modified then Watcher_change p else Watcher_add p in
  valid_delay (debounceMs config) ->
  extname p = fileExtension config ->
  exit_status st = None ->
  quiet p (seen config later) ->
  (debounceMs config <= elapsed (seen config later))%N ->
  starts_of p (started (process_run config st (FromWatcher report :: later))) =
    {| start_time := clock st + debounceMs config; start_path := p;
       start_entry := false |} :: starts_of p (started st).
Proof.
  cbv zeta. intros Hvalid Hext Halive Hquiet Hlong.
  pose proof (timer_delay_valid _ Hvalid) as Hdelay.
  assert (Hwf : loop_wf (process_run config (initializeWatcher true) pevs)).
  { rewrite process_run_seen. apply run_wf, initial_loop_wf. }
  rewrite (process_run_seen (_ :: _)).
  assert (Hseen : seen config (FromWatcher (if modified then Watcher_change p
                                            else Watcher_add p) :: later)
                  = FileChanged p :: seen config later).
  { apply String.eqb_eq in Hext. unfold seen.
    destruct modified; cbn [fmap list_fmap concat seen_by_debouncer];
      rewrite Hext; reflexivity. }
  rewrite Hseen.
  destruct (change_then_quiet config p (seen config later) _ Hwf Halive Hquiet
              ltac:(lia)) as (Hstarts & _).
  rewrite Hstarts, Hdelay. reflexivity.
Qed.

End Watcher.

Lemma unchanged_path_is_not_uploaded_witness :
  let evs := [FileChanged "/watch/b.bar"; Elapse 5000; UploadSettled "/watch/b.bar";
              Signal_SIGINT] in
  starts_of "/watch/a.bar" (started (run example_config initial_loop evs)) =
    starts_of "/watch/a.bar" (started initial_loop) /\
  timers_of "/watch/a.bar" (pending (run example_config initial_loop evs)) = [].
Proof.
  apply (unchanged_path_is_not_uploaded example_config "/watch/a.bar"
           [FileChanged "/watch/b.bar"; Elapse 5000; UploadSettled "/watch/b.bar";
            Signal_SIGINT] initial_loop).
  - exists []. reflexivity.
  - reflexivity.
  - repeat constructor; discriminate.
Defined.

Lemma spaced_changes_upload_each_witness :
  let gaps := [ [Elapse 1000]; [Elapse 400; FileChanged "/watch/b.bar"; Elapse 2100];
                [UploadSettled "/watch/a.bar"; Elapse 1000] ] in
  let st := run example_config initial_loop (spaced "/watch/a.bar" gaps) in
  starts_of "/watch/a.bar" (started st) =
    spaced_starts "/watch/a.bar" 1000 0 [1000; 2500; 1000]%N ++ [] /\
  length (starts_of "/watch/a.bar" (started st)) = 3 + 0.
Proof.
  apply (spaced_changes_upload_each example_config "/watch/a.bar"
           [ [Elapse 1000]; [Elapse 400; FileChanged "/watch/b.bar"; Elapse 2100];
             [UploadSettled "/watch/a.bar"; Elapse 1000] ] initial_loop).
  - split; apply N.leb_le; reflexivity.
  - exists []. reflexivity.
  - reflexivity.
  - repeat constructor; cbn; lia.
Defined.

Lemma out_of_range_interval_is_one_ms_witness :
  timers_of "/watch/a.bar"
    (pending (step config_long_debounce initial_loop (FileChanged "/watch/a.bar"))) =
    [ {| timer_id := 0; timer_due := 0 + 1; timer_path := "/watch/a.bar" |} ] /\
  starts_of "/watch/a.bar"
    (started (run config_long_debounce initial_loop
                [FileChanged "/watch/a.bar"; Elapse 1])) =
    [ {| start_time := 0 + 1; start_path := "/watch/a.bar"; start_entry := false |} ].
Proof.
  apply (out_of_range_interval_is_one_ms config_long_debounce "/watch/a.bar"
           [Elapse 1] initial_loop).
  - intros [_ Hhigh]. apply N.leb_le in Hhigh. discriminate.
  - exists []. reflexivity.
  - reflexivity.
  - split; [repeat constructor | cbn; lia].
Defined.

Lemma other_path_does_not_interfere_witness :
  let before := [FileChanged "/watch/a.bar"; Elapse 400] in
  let after := [Elapse 700; FileChanged "/watch/a.bar"; Elapse 1000] in
  starts_of "/watch/a.bar"
    (started (run example_config initial_loop
                (before ++ FileChanged "/watch/b.bar" :: after))) =
    starts_of "/watch/a.bar" (started (run example_config initial_loop (before ++ after))) /\
  timer_due <$> timers_of "/watch/a.bar"
    (pending (run example_config initial_loop
                (before ++ FileChanged "/watch/b.bar" :: after))) =
    timer_due <$> timers_of "/watch/a.bar"
      (pending (run example_config initial_loop (before ++ after))).
Proof.
  apply (other_path_does_not_interfere example_config "/watch/a.bar" "/watch/b.bar"
           [FileChanged "/watch/a.bar"; Elapse 400]
           [Elapse 700; FileChanged "/watch/a.bar"; Elapse 1000] initial_loop).
  - exists []. reflexivity.
  - discriminate.
  - repeat constructor; discriminate.
Defined.

Lemma extension_without_dot_matches_nothing_witness :
  let pevs := [FromWatcher (Watcher_add "/watch/a.bar"); TimePasses 5000;
               FromWatcher (Watcher_change "/watch/abar"); TimePasses 5000] in
  started (process_run config_without_dot (initializeWatcher true) pevs) = [] /\
  pending (process_run config_without_dot (initializeWatcher true) pevs) = [].
Proof.
  apply (extension_without_dot_matches_nothing config_without_dot true
           [FromWatcher (Watcher_add "/watch/a.bar"); TimePasses 5000;
            FromWatcher (Watcher_change "/watch/abar"); TimePasses 5000]
           "b"%char "ar").
  - reflexivity.
  - discriminate.
Defined.

Lemma forwarded_file_url_witness :
  exists stem,
    basename "/watch/flow.bar" = stem +:+ ".bar" /\
    (".bar" <> "" -> stem <> "") /\
    req_url (upload_request example_config (basename "/watch/flow.bar")
               "/watch/flow.bar" (JsString "tok-A") 1024) =
      "https://api.example.com" +:+ "/api/v1/bar-files/" +:+ stem +:+ ".bar" +:+ ".bar".
Proof.
  apply (forwarded_file_url example_config "/watch/flow.bar" (JsString "tok-A") 1024%N).
  reflexivity.
Defined.

Lemma matching_file_is_uploaded_witness :
  let st := process_run example_config (initializeWatcher true)
              [FromWatcher Watcher_ready; FromWatcher (Watcher_add "/watch/notes.txt");
               TimePasses 300] in
  starts_of "/watch/a.bar"
    (started (process_run example_config st
                [FromWatcher (Watcher_change "/watch/a.bar"); TimePasses 600;
                 FromWatcher (Watcher_add "/watch/b.bar"); TimePasses 400])) =
    {| start_time := 300 + 1000; start_path := "/watch/a.bar"; start_entry := false |}
    :: starts_of "/watch/a.bar" (started st).
Proof.
  apply (matching_file_is_uploaded example_config
           [FromWatcher Watcher_ready; FromWatcher (Watcher_add "/watch/notes.txt");
            TimePasses 300]
           [TimePasses 600; FromWatcher (Watcher_add "/watch/b.bar"); TimePasses 400]
           "/watch/a.bar" true).
  - split; apply N.leb_le; reflexivity.
  - reflexivity.
  - reflexivity.
  - repeat constructor.
  - cbn. lia.
Defined.
